(** * Frisbee: the framed connection engine and the client router loop

    A shallow embedding of [Conn] (the connection engine), [StreamConn]
    (sub-streams) and [Client.reactor] (the router loop), together with the
    pieces of the Go runtime and standard library these functions call
    ([encoding/binary], [bufio.Writer], [net.Conn], channels).

    Every exported call is modelled as one atomic step on the connection
    record: the mutexes only serialise such steps and are not represented. *)

From Stdlib Require Import ZArith Lia List.
From Stdlib.Strings Require Import Byte.
From stdpp Require Import base option list gmap.

Local Open Scope Z_scope.

(** ** Machine integers and bytes *)

Abbreviation byte := Byte.byte.

#[global] Instance byte_eq_dec : EqDecision byte := λ x y,
  match Byte.eqb x y as b return Byte.eqb x y = b → Decision (x = y) with
  | true => λ H, left (Byte.byte_dec_bl x y H)
  | false => λ H, right (Byte.eqb_false H)
  end eq_refl.

Definition is_uint32 (v : Z) : Prop := 0 ≤ v < 2 ^ 32.
Definition is_uint64 (v : Z) : Prop := 0 ≤ v < 2 ^ 64.

(** [int(v)] for [v : uint64] on a 64-bit target: the same bits read as a
    signed integer. *)
Definition int_of_uint64 (v : Z) : Z := (v + 2 ^ 63) `mod` 2 ^ 64 - 2 ^ 63.

(** [uint64(i)] for [i : int]. *)
Definition uint64_of_int (i : Z) : Z := i `mod` 2 ^ 64.

(** [len(s)] as a Go [int]. *)
Definition len {A} (s : list A) : Z := Z.of_nat (length s).

(** [byte(v)]: the low eight bits. *)
Definition byte_of_Z (v : Z) : byte :=
  default x00 (Byte.of_N (Z.to_N (Z.land v 255))).

Definition Z_of_byte (b : byte) : Z := Z.of_N (Byte.to_N b).

(** [s[lo:hi]] on a slice whose length is its capacity; out of range the Go
    runtime panics, which is [None] here. *)
Definition slice {A} (s : list A) (lo hi : Z) : option (list A) :=
  if bool_decide (0 ≤ lo ∧ lo ≤ hi ∧ hi ≤ len s)
  then Some (take (Z.to_nat (hi - lo)) (drop (Z.to_nat lo) s))
  else None.

(** [copy(dst, src)]: overwrites the first [min(len dst, len src)] elements
    of [dst]; the first component is the number of elements copied. *)
Definition copy {A} (dst src : list A) : Z * list A :=
  (Z.min (len dst) (len src), list_inserts 0 src dst).

(** [copy(dst[lo:], src)] seen from the array behind [dst]. *)
Definition copy_at {A} (dst : list A) (lo : nat) (src : list A) : list A :=
  list_inserts lo src dst.

(** ** encoding/binary, big endian *)

Module BigEndian.

(** The bytes [PutUint32] stores in [b[0]], ..., [b[3]]. *)
Definition PutUint32 (v : Z) : list byte :=
  [ byte_of_Z (Z.shiftr v 24); byte_of_Z (Z.shiftr v 16);
    byte_of_Z (Z.shiftr v 8); byte_of_Z v ].

(** The bytes [PutUint64] stores in [b[0]], ..., [b[7]]. *)
Definition PutUint64 (v : Z) : list byte :=
  [ byte_of_Z (Z.shiftr v 56); byte_of_Z (Z.shiftr v 48);
    byte_of_Z (Z.shiftr v 40); byte_of_Z (Z.shiftr v 32);
    byte_of_Z (Z.shiftr v 24); byte_of_Z (Z.shiftr v 16);
    byte_of_Z (Z.shiftr v 8); byte_of_Z v ].

(** [Uint32(b)]; indexing [b[3]] panics on a shorter slice. *)
Definition Uint32 (b : list byte) : option Z :=
  match b with
  | b0 :: b1 :: b2 :: b3 :: _ =>
      Some (Z.lor (Z.lor (Z.lor (Z_of_byte b3)
                                (Z.shiftl (Z_of_byte b2) 8))
                         (Z.shiftl (Z_of_byte b1) 16))
                  (Z.shiftl (Z_of_byte b0) 24))
  | _ => None
  end.

(** [Uint64(b)]; indexing [b[7]] panics on a shorter slice. *)
Definition Uint64 (b : list byte) : option Z :=
  match b with
  | b0 :: b1 :: b2 :: b3 :: b4 :: b5 :: b6 :: b7 :: _ =>
      Some (Z.lor (Z.lor (Z.lor (Z.lor (Z.lor (Z.lor (Z.lor
             (Z_of_byte b7)
             (Z.shiftl (Z_of_byte b6) 8))
             (Z.shiftl (Z_of_byte b5) 16))
             (Z.shiftl (Z_of_byte b4) 24))
             (Z.shiftl (Z_of_byte b3) 32))
             (Z.shiftl (Z_of_byte b2) 40))
             (Z.shiftl (Z_of_byte b1) 48))
             (Z.shiftl (Z_of_byte b0) 56))
  | _ => None
  end.

End BigEndian.

(** ** Errors *)

(** The context labels handed to [errors.WithContext]. *)
Inductive ErrorContext : Type :=
  DIAL | WRITE | POP | PUSH | READCONN | WRITECONN.

(** Errors that come out of the operating system and the [io], [os] and
    [net] packages: what a [net.Conn] or a [bufio.Writer] on top of it can
    fail with. *)
Inductive syserror : Type :=
| EOF                                     (* io.EOF *)
| ErrClosedPipe                           (* io.ErrClosedPipe *)
| ErrShortWrite                           (* io.ErrShortWrite *)
| ErrDeadlineExceeded                     (* os.ErrDeadlineExceeded *)
| ErrNetClosing                           (* use of closed network connection *)
| OpError (timeout : bool) (errno : Z).   (* *net.OpError *)

(** Non-nil values of Go's [error] interface as this package sees them. A
    Go [error] is an [option err], with [None] for [nil]. *)
Inductive err : Type :=
| Sys (e : syserror)
| InvalidContentLength
| ConnectionClosed
| ConnectionPaused
| ConnectionNotInitialized
| InvalidBufferLength
| InvalidBufferContents
| QueueClosed
| WithContext (e : err) (ctx : ErrorContext).

#[global] Instance ErrorContext_eq_dec : EqDecision ErrorContext.
Proof. solve_decision. Defined.
#[global] Instance syserror_eq_dec : EqDecision syserror.
Proof. solve_decision. Defined.
#[global] Instance err_eq_dec : EqDecision err.
Proof. solve_decision. Defined.

Module errors.

(** Modelled from the spec: the package [internal/errors] is not part of
    the sources at hand. [Is] follows the chain of wrapped errors and
    compares each link with the target; [WithContext] wraps an error with
    a label and keeps [nil] as [nil]. *)
Fixpoint Is_chain (e target : err) : bool :=
  bool_decide (e = target) ||
  match e with
  | WithContext e' _ => Is_chain e' target
  | _ => false
  end.

Definition Is (e : option err) (target : err) : bool :=
  match e with
  | Some e' => Is_chain e' target
  | None => false
  end.

Definition WithContext (e : option err) (ctx : ErrorContext) : option err :=
  (λ e', WithContext e' ctx) <$> e.

End errors.

Module os.

(** [os.IsTimeout]: the error itself reports a timeout; wrappers made by
    [errors.WithContext] are not looked through. *)
Definition IsTimeout (e : option err) : bool :=
  match e with
  | Some (Sys ErrDeadlineExceeded) => true
  | Some (Sys (OpError t _)) => t
  | _ => false
  end.

End os.

(** ** The underlying stream, [net.Conn] *)

(** One end of a reliable byte stream. [sent] collects what was written to
    the peer; [inbound] holds what the peer wrote, in the chunks successive
    [Read] calls will see; once it is empty the peer has hung up. [wfail]
    is the failure the next [Write] runs into, if any. *)
Record NetConn : Type := mkNetConn {
  sent : list byte;
  inbound : list (list byte);
  wfail : option syserror;
  nc_closed : bool
}.

Module net.

(** [Write(p)]: all of [p] or nothing. *)
Definition Write (p : list byte) (c : NetConn) : Z * option syserror * NetConn :=
  if nc_closed c then (0, Some ErrNetClosing, c)
  else match wfail c with
       | Some e => (0, Some e, c)
       | None => (len p, None,
                  mkNetConn (sent c ++ p) (inbound c) (wfail c) (nc_closed c))
       end.

(** [Read(p)] with [len(p) = room]: the next chunk, or as much of it as
    fits. *)
Definition Read (room : nat) (c : NetConn) : list byte * option syserror * NetConn :=
  if nc_closed c then ([], Some ErrNetClosing, c)
  else match inbound c with
       | [] => ([], Some EOF, c)
       | chunk :: rest =>
           if bool_decide (length chunk ≤ room)%nat
           then (chunk, None, mkNetConn (sent c) rest (wfail c) (nc_closed c))
           else (take room chunk, None,
                 mkNetConn (sent c) (drop room chunk :: rest) (wfail c) (nc_closed c))
       end.

Definition Close (c : NetConn) : NetConn :=
  mkNetConn (sent c) (inbound c) (wfail c) true.

End net.

(** ** [bufio.Writer] *)

Module bufio.

(** [buffered] is [b.buf[:b.n]], [size] is [len(b.buf)], [werr] the sticky
    error [b.err]. The stream [b.wr] is the connection's and is threaded
    through. *)
Record Writer : Type := mkWriter {
  buffered : list byte;
  size : Z;
  werr : option syserror
}.

Definition NewWriterSize (sz : Z) : Writer := mkWriter [] sz None.

Definition Buffered (b : Writer) : Z := len (buffered b).
Definition Available (b : Writer) : Z := size b - len (buffered b).

Definition Flush (b : Writer) (wr : NetConn) : option syserror * Writer * NetConn :=
  match werr b with
  | Some e => (Some e, b, wr)
  | None =>
      if bool_decide (buffered b = []) then (None, b, wr)
      else
        let '(n, e, wr') := net.Write (buffered b) wr in
        let e := if bool_decide (n < Buffered b ∧ e = None)
                 then Some ErrShortWrite else e in
        match e with
        | Some e' =>
            (Some e', mkWriter (drop (Z.to_nat n) (buffered b)) (size b) (Some e'), wr')
        | None => (None, mkWriter [] (size b) None, wr')
        end
  end.

(** The loop of [Write]: while [p] does not fit and no error is pending,
    either hand [p] to the stream (empty buffer) or fill the buffer and
    flush it. A flush that succeeds empties the buffer, so the third
    round, if reached, has nothing left to do. *)
Fixpoint Write_loop (rounds : nat) (p : list byte) (nn : Z)
    (b : Writer) (wr : NetConn) : list byte * Z * Writer * NetConn :=
  match rounds with
  | O => (p, nn, b, wr)
  | S rounds' =>
      if bool_decide (len p > Available b ∧ werr b = None) then
        if bool_decide (Buffered b = 0) then
          let '(n, e, wr') := net.Write p wr in
          Write_loop rounds' (drop (Z.to_nat n) p) (nn + n)
                     (mkWriter (buffered b) (size b) e) wr'
        else
          let n := Available b in
          let b1 := mkWriter (buffered b ++ take (Z.to_nat n) p) (size b) (werr b) in
          let '(_, b2, wr') := Flush b1 wr in
          Write_loop rounds' (drop (Z.to_nat n) p) (nn + n) b2 wr'
      else (p, nn, b, wr)
  end.

Definition Write (p : list byte) (b : Writer) (wr : NetConn)
    : Z * option syserror * Writer * NetConn :=
  let '(p', nn, b', wr') := Write_loop 3 p 0 b wr in
  match werr b' with
  | Some e => (nn, Some e, b', wr')
  | None =>
      (nn + len p', None, mkWriter (buffered b' ++ p') (size b') None, wr')
  end.

End bufio.

(** ** Messages, packets and the incoming queue *)

Module protocol.

(** Modelled from the spec: the declaration of the message header lives
    in [internal/protocol]; the fields and their widths are those of the
    header table ([From], [To], [Operation]: uint32; [Id],
    [ContentLength]: uint64). *)
Record Message : Type := mkMessage {
  From : Z;
  To : Z;
  Id : Z;
  Operation : Z;
  ContentLength : Z
}.

(** The values the Go types admit. *)
Definition wf (m : Message) : Prop :=
  is_uint32 (From m) ∧ is_uint32 (To m) ∧ is_uint64 (Id m) ∧
  is_uint32 (Operation m) ∧ is_uint64 (ContentLength m).

(** A decoded header and its payload; [Content] is a [*[]byte], [None]
    for [nil]. *)
Record Packet : Type := mkPacket {
  pMessage : Message;
  Content : option (list byte)
}.

End protocol.

Abbreviation Message := protocol.Message.
Abbreviation Packet := protocol.Packet.

#[global] Instance Message_eq_dec : EqDecision Message.
Proof. solve_decision. Defined.

Module ringbuffer.

(** Modelled from the spec: the bounded queue of [internal/ringbuffer] is
    not part of the sources at hand. FIFO, fixed capacity, with close. *)
Record RingBuffer : Type := mkRingBuffer {
  items : list Packet;
  capacity : Z;
  rb_closed : bool
}.

Definition NewRingBuffer (cap : Z) : RingBuffer := mkRingBuffer [] cap false.

Inductive pushed : Type :=
| Pushed (rb : RingBuffer)
| PushErr (e : err)
| PushBlocks.

Inductive popped : Type :=
| Popped (p : Packet) (rb : RingBuffer)
| PopErr (e : err)
| PopBlocks.

(** [Push(p)]: fails once closed; waits while full. *)
Definition Push (p : Packet) (rb : RingBuffer) : pushed :=
  if rb_closed rb then PushErr QueueClosed
  else if bool_decide (capacity rb ≤ len (items rb)) then PushBlocks
  else Pushed (mkRingBuffer (items rb ++ [p]) (capacity rb) false).

(** [Pop()]: the head; waits while empty and open; fails when closed and
    drained. *)
Definition Pop (rb : RingBuffer) : popped :=
  match items rb with
  | p :: rest => Popped p (mkRingBuffer rest (capacity rb) (rb_closed rb))
  | [] => if rb_closed rb then PopErr QueueClosed else PopBlocks
  end.

Definition Close (rb : RingBuffer) : RingBuffer :=
  mkRingBuffer (items rb) (capacity rb) true.

End ringbuffer.

(** ** Channels *)

(** A buffered [chan struct{}]: only the number of queued signals matters. *)
Record Chan : Type := mkChan {
  pending : Z;
  ch_cap : Z;
  ch_closed : bool
}.

(** ** Connections and sub-streams *)

Inductive State : Type := CONNECTED | CLOSED | PAUSED.

#[global] Instance State_eq_dec : EqDecision State.
Proof. solve_decision. Defined.

Definition DefaultBufferSize : Z := 2 ^ 19.

(** The largest [int] of a 64-bit target. *)
Definition maxInt : Z := 2 ^ 63 - 1.

(** ** [bytes.Buffer] *)

Module bytes.

(** [unread] is [b.buf[b.off:]], [off] is [b.off] and [cap] is
    [cap(b.buf)]. The bytes before [off] have been read and are never
    looked at again. The buffers of this program are made by
    [bytes.NewBuffer(make([]byte, 0, DefaultBufferSize))], so [b.buf] is
    never nil. *)
Record Buffer : Type := mkBuffer {
  unread : list byte;
  off : Z;
  cap : Z
}.

Definition NewBuffer (c : Z) : Buffer := mkBuffer [] 0 c.

Definition Len (b : Buffer) : Z := len (unread b).
Definition Cap (b : Buffer) : Z := cap b.
Definition Bytes (b : Buffer) : list byte := unread b.
Definition Reset (b : Buffer) : Buffer := mkBuffer [] 0 (cap b).

(** [tryGrowByReslice(n)] succeeds: [n <= cap(b.buf) - len(b.buf)]. *)
Definition fits (n : Z) (b : Buffer) : bool :=
  bool_decide (n ≤ cap b - (off b + len (unread b))).

(** [grow(n)]: room for [n] more bytes, by a reslice, by sliding the unread
    bytes down, or in a new array of [2*c + n] bytes; [None] when it
    panics with [ErrTooLarge]. The length [grow] adds to [b.buf] is taken
    back or filled by every caller and is not kept here. *)
Definition grow (n : Z) (b : Buffer) : option Buffer :=
  let m := Len b in
  let b := if bool_decide (m = 0 ∧ off b ≠ 0) then Reset b else b in
  if fits n b then Some b
  else
    let c := cap b in
    if bool_decide (n ≤ c `quot` 2 - m) then Some (mkBuffer (unread b) 0 c)
    else if bool_decide (c > maxInt - c - n) then None
    else Some (mkBuffer (unread b) 0 (2 * c + n)).

(** [Grow(n)]; a negative [n] panics. *)
Definition Grow (n : Z) (b : Buffer) : option Buffer :=
  if bool_decide (n < 0) then None else grow n b.

(** [Write(p)]: the number of bytes written and the buffer; the error is
    always nil. *)
Definition Write (p : list byte) (b : Buffer) : option (Z * Buffer) :=
  b' ← (if fits (len p) b then Some b else grow (len p) b);
  Some (len p, mkBuffer (unread b' ++ p) (off b') (cap b')).

(** [Read(p)] with [len(p) = room] on a buffer that is not empty. *)
Definition Read (room : nat) (b : Buffer) : list byte * Buffer :=
  (take room (unread b),
   mkBuffer (drop room (unread b)) (off b + len (take room (unread b))) (cap b)).

(** [Next(n)]. *)
Definition Next (n : nat) (b : Buffer) : Buffer :=
  mkBuffer (drop n (unread b)) (off b + len (take n (unread b))) (cap b).

End bytes.

(** A [StreamConn] object. The embedded [*Conn] is the connection in whose
    [heap] the object lives; [incomingBuffer] is the [bytes.Buffer] of the
    [incomingBuffer] the object points to. *)
Record StreamConn : Type := mkStreamConn {
  id : Z;
  incomingBuffer : bytes.Buffer;
  closed : bool
}.

(** [newIncomingBuffer()]. *)
Definition newIncomingBuffer : bytes.Buffer := bytes.NewBuffer DefaultBufferSize.

(** The connection. A [*StreamConn] is an index into [heap], the sub-stream
    objects created so far; [streamConns] maps stream ids to such pointers;
    [StreamConnCh] lists the pointers announced and not yet received; [wg]
    counts the running workers. The logger is left out: it never changes
    control flow. *)
Record Conn : Type := mkConn {
  conn : NetConn;
  state : State;
  writer : bufio.Writer;
  flusher : Chan;
  incomingMessages : ringbuffer.RingBuffer;
  streamConns : gmap Z nat;
  StreamConnCh : list nat;
  wg : nat;
  error : option err;
  heap : list StreamConn
}.

Definition set_conn (x : NetConn) (c : Conn) : Conn :=
  mkConn x (state c) (writer c) (flusher c) (incomingMessages c)
         (streamConns c) (StreamConnCh c) (wg c) (error c) (heap c).
Definition set_state (x : State) (c : Conn) : Conn :=
  mkConn (conn c) x (writer c) (flusher c) (incomingMessages c)
         (streamConns c) (StreamConnCh c) (wg c) (error c) (heap c).
Definition set_writer (x : bufio.Writer) (c : Conn) : Conn :=
  mkConn (conn c) (state c) x (flusher c) (incomingMessages c)
         (streamConns c) (StreamConnCh c) (wg c) (error c) (heap c).
Definition set_flusher (x : Chan) (c : Conn) : Conn :=
  mkConn (conn c) (state c) (writer c) x (incomingMessages c)
         (streamConns c) (StreamConnCh c) (wg c) (error c) (heap c).
Definition set_incomingMessages (x : ringbuffer.RingBuffer) (c : Conn) : Conn :=
  mkConn (conn c) (state c) (writer c) (flusher c) x
         (streamConns c) (StreamConnCh c) (wg c) (error c) (heap c).
Definition set_streamConns (x : gmap Z nat) (c : Conn) : Conn :=
  mkConn (conn c) (state c) (writer c) (flusher c) (incomingMessages c)
         x (StreamConnCh c) (wg c) (error c) (heap c).
Definition set_StreamConnCh (x : list nat) (c : Conn) : Conn :=
  mkConn (conn c) (state c) (writer c) (flusher c) (incomingMessages c)
         (streamConns c) x (wg c) (error c) (heap c).
Definition set_wg (x : nat) (c : Conn) : Conn :=
  mkConn (conn c) (state c) (writer c) (flusher c) (incomingMessages c)
         (streamConns c) (StreamConnCh c) x (error c) (heap c).
Definition set_error (x : option err) (c : Conn) : Conn :=
  mkConn (conn c) (state c) (writer c) (flusher c) (incomingMessages c)
         (streamConns c) (StreamConnCh c) (wg c) x (heap c).
Definition set_heap (x : list StreamConn) (c : Conn) : Conn :=
  mkConn (conn c) (state c) (writer c) (flusher c) (incomingMessages c)
         (streamConns c) (StreamConnCh c) (wg c) (error c) x.

(** ** Calls as steps on the connection *)

(** What a call on a connection comes to: it returns [a] and leaves the
    connection as [c]; or the Go runtime panics; or the call does not
    return, the caller being parked on a queue or a wait group or going
    round a loop that has no way out, with the connection as [c]. *)
Inductive outcome (A : Type) : Type :=
| Done (a : A) (c : Conn)
| Panics
| Blocks (c : Conn).
Arguments Done {A} a c.
Arguments Panics {A}.
Arguments Blocks {A} c.

Definition M (A : Type) : Type := Conn → outcome A.

#[global] Instance M_ret : MRet M := λ A a c, Done a c.
#[global] Instance M_bind : MBind M := λ A B f m c,
  match m c with
  | Done a c' => f a c'
  | Panics => Panics
  | Blocks c' => Blocks c'
  end.

Definition gets {A} (f : Conn → A) : M A := λ c, Done (f c) c.
Definition modify (f : Conn → Conn) : M unit := λ c, Done tt (f c).
Definition panic {A} : M A := λ _, Panics.
Definition block {A} : M A := λ c, Blocks c.

(** The goroutine a piece of code runs in: one of the two workers the
    connection starts in [New] ([flushLoop], [readLoop]), or any other. *)
Inductive goroutine : Type := Worker | User.

(** ** The client's router table *)

Inductive Action : Type := NONE | CLOSE | SHUTDOWN.

(** [ClientRouterFunc]: the reply header is a [*Message], [None] for [nil]. *)
Abbreviation ClientRouterFunc :=
  (Message → list byte → option Message * list byte * Action)%type.

Module client.

(** [Client]: [conn] is the connection the pointer refers to; address,
    options and the heartbeat channel play no part in the router loop. *)
Record Client : Type := mkClient {
  conn : Conn;
  router : gmap Z ClientRouterFunc;
  closed : bool
}.

End client.

Abbreviation Client := client.Client.

(** ** Sample data

    Concrete values the statements below are tried on: a magic sequence, a
    stream nobody writes to, a header with its payload, and connections in
    each of the three states. *)

Definition ex_magic : list byte := [x46; x52; x53; x42].

Definition ex_STREAM : Z := 4294967294.
Definition ex_STREAMCLOSE : Z := 4294967295.

Definition ex_stream : NetConn := mkNetConn [] [] None false.

Definition ex_message : Message := protocol.mkMessage 1 2 3 16 5.

Definition ex_payload : list byte := [x68; x65; x6c; x6c; x6f].

(** [New(ex_stream)], then [NewStreamConn(7)]. *)
Definition ex_connected : Conn :=
  mkConn ex_stream CONNECTED
         (bufio.mkWriter [] (2 ^ 19) None)
         (mkChan 0 1024 false)
         (ringbuffer.mkRingBuffer [] (2 ^ 19) false)
         {[ 7 := 0%nat ]} [] 2 (Some ConnectionClosed)
         [mkStreamConn 7 (bytes.mkBuffer [] 0 (2 ^ 19)) false].

(** [ex_connected] after the peer has hung up and the reader worker has
    seen the end of the stream. *)
Definition ex_paused : Conn :=
  mkConn ex_stream PAUSED
         (bufio.mkWriter [] (2 ^ 19) None)
         (mkChan 0 1024 true)
         (ringbuffer.mkRingBuffer [] (2 ^ 19) true)
         {[ 7 := 0%nat ]} [] 2 (Some ConnectionPaused)
         [mkStreamConn 7 (bytes.mkBuffer [] 0 (2 ^ 19)) false].

(** [New(ex_stream)] after [Close()]. *)
Definition ex_closed : Conn :=
  mkConn (mkNetConn [] [] None true) CLOSED
         (bufio.mkWriter [] (2 ^ 19) None)
         (mkChan 0 1024 true)
         (ringbuffer.mkRingBuffer [] (2 ^ 19) true)
         ∅ [] 0 (Some ConnectionClosed) [].

(** A handler that echoes the payload under operation 17. *)
Definition ex_echo : ClientRouterFunc :=
  λ m p, (Some (protocol.mkMessage (protocol.To m) (protocol.From m)
                                   (protocol.Id m) 17 (len p)), p, NONE).

(** A connection with [ex_message] and its payload waiting in the queue. *)
Definition ex_inbox : Conn :=
  mkConn ex_stream CONNECTED
         (bufio.mkWriter [] (2 ^ 19) None)
         (mkChan 0 1024 false)
         (ringbuffer.mkRingBuffer
            [protocol.mkPacket ex_message (Some ex_payload)] (2 ^ 19) false)
         ∅ [] 2 (Some ConnectionClosed) [].

Definition ex_client : Client :=
  client.mkClient ex_inbox {[ 16 := ex_echo ]} false.

Section Frisbee.

(** Modelled from the spec: the constants of [internal/protocol] and the
    reserved operation codes are not part of the sources at hand. The header
    starts with the magic sequence [ReservedBytes], followed by the fields in
    the order of the header table, each at the offset where the previous one
    ends. *)
Variable ReservedBytes : list byte.
Variables STREAM STREAMCLOSE : Z.

Definition ReservedSize : nat := length ReservedBytes.
Definition FromSize : nat := 4.
Definition ToSize : nat := 4.
Definition IdSize : nat := 8.
Definition OperationSize : nat := 4.
Definition ContentLengthSize : nat := 8.

Definition ReservedOffset : nat := 0.
Definition FromOffset : nat := ReservedOffset + ReservedSize.
Definition ToOffset : nat := FromOffset + FromSize.
Definition IdOffset : nat := ToOffset + ToSize.
Definition OperationOffset : nat := IdOffset + IdSize.
Definition ContentLengthOffset : nat := OperationOffset + OperationSize.
Definition MessageSize : nat := ContentLengthOffset + ContentLengthSize.

(** *** The header encoder of [WriteMessage] *)

(** [var encodedMessage [MessageSize]byte] and the six stores into it. *)
Definition encodeMessage (message : Message) : list byte :=
  let encodedMessage := replicate MessageSize x00 in
  let encodedMessage :=
    copy_at encodedMessage ReservedOffset (take ReservedSize ReservedBytes) in
  let encodedMessage :=
    copy_at encodedMessage FromOffset
            (BigEndian.PutUint32 (protocol.From message)) in
  let encodedMessage :=
    copy_at encodedMessage ToOffset
            (BigEndian.PutUint32 (protocol.To message)) in
  let encodedMessage :=
    copy_at encodedMessage IdOffset
            (BigEndian.PutUint64 (protocol.Id message)) in
  let encodedMessage :=
    copy_at encodedMessage OperationOffset
            (BigEndian.PutUint32 (protocol.Operation message)) in
  copy_at encodedMessage ContentLengthOffset
          (BigEndian.PutUint64 (protocol.ContentLength message)).

(** The header [StreamConn.Write] builds: [From] and [To] stay zero. *)
Definition encodeStreamHeader (sid : Z) (length : Z) : list byte :=
  let encodedMessage := replicate MessageSize x00 in
  let encodedMessage :=
    copy_at encodedMessage ReservedOffset (take ReservedSize ReservedBytes) in
  let encodedMessage :=
    copy_at encodedMessage IdOffset (BigEndian.PutUint64 sid) in
  let encodedMessage :=
    copy_at encodedMessage OperationOffset (BigEndian.PutUint32 STREAM) in
  copy_at encodedMessage ContentLengthOffset (BigEndian.PutUint64 length).

(** *** The header decoder of the reader worker *)

(** [bytes.Equal] of the reserved prefix at [index] with [ReservedBytes]. *)
Definition checkReserved (buf : list byte) (index : Z) : option bool :=
  b ← slice buf (index + Z.of_nat ReservedOffset)
            (index + Z.of_nat ReservedOffset + Z.of_nat ReservedSize);
  Some (bool_decide (b = ReservedBytes)).

(** [decodedMessage := protocol.Message{...}] read at [index]; [None] when a
    slice expression is out of range. *)
Definition decodeMessage (buf : list byte) (index : Z) : option Message :=
  from ← slice buf (index + Z.of_nat FromOffset)
               (index + Z.of_nat FromOffset + Z.of_nat FromSize)
         ≫= BigEndian.Uint32;
  to ← slice buf (index + Z.of_nat ToOffset)
             (index + Z.of_nat ToOffset + Z.of_nat ToSize)
       ≫= BigEndian.Uint32;
  i ← slice buf (index + Z.of_nat IdOffset)
            (index + Z.of_nat IdOffset + Z.of_nat IdSize)
      ≫= BigEndian.Uint64;
  op ← slice buf (index + Z.of_nat OperationOffset)
             (index + Z.of_nat OperationOffset + Z.of_nat OperationSize)
       ≫= BigEndian.Uint32;
  cl ← slice buf (index + Z.of_nat ContentLengthOffset)
             (index + Z.of_nat ContentLengthOffset + Z.of_nat ContentLengthSize)
       ≫= BigEndian.Uint64;
  Some (protocol.mkMessage from to i op cl).

(** *** Construction *)

Definition New (c : NetConn) : Conn :=
  mkConn c CONNECTED
         (bufio.NewWriterSize DefaultBufferSize)
         (mkChan 0 1024 false)
         (ringbuffer.NewRingBuffer DefaultBufferSize)
         ∅ [] 2 (Some ConnectionClosed) [].

(** *** State changes *)

(** [Error()]: the last-error cell. *)
Definition Error : M (option err) := gets error.

(** [close(c.flusher)]: closing a closed channel panics. *)
Definition close_flusher : M unit := λ c,
  if ch_closed (flusher c) then Panics
  else Done tt (set_flusher (mkChan (pending (flusher c)) (ch_cap (flusher c)) true) c).

(** [c.wg.Wait()], run by [g]. Both workers call [wg.Done] on their
    way out, deferred to their return: a worker that gets here waits for
    its own return and never goes on. Any other goroutine goes on once both
    workers have returned, which the closed wake channel and the read
    deadline make them do. *)
Definition wg_Wait (g : goroutine) : M unit :=
  match g with
  | Worker => block
  | User => modify (set_wg 0)
  end.

(** [killGoroutines]: close the queue and the wake channel, then wait for
    both workers; the read deadline is set and cleared again. *)
Definition killGoroutines (g : goroutine) : M unit :=
  _ ← modify (λ c, set_incomingMessages (ringbuffer.Close (incomingMessages c)) c);
  _ ← close_flusher;
  wg_Wait g.

Definition pause (g : goroutine) : M (option err) :=
  st ← gets state;
  if bool_decide (st = CONNECTED) then
    _ ← modify (set_state PAUSED);
    _ ← modify (set_error (Some ConnectionPaused));
    _ ← killGoroutines g;
    mret None
  else if bool_decide (st = PAUSED) then mret (Some ConnectionPaused)
  else mret (Some ConnectionNotInitialized).

(** [c.writer.Flush()] on the connection's writer and stream. *)
Definition writer_Flush : M (option syserror) := λ c,
  let '(e, w, nc) := bufio.Flush (writer c) (conn c) in
  Done e (set_conn nc (set_writer w c)).

(** [c.writer.Write(p)]. *)
Definition writer_Write (p : list byte) : M (option syserror) := λ c,
  let '(_, e, w, nc) := bufio.Write p (writer c) (conn c) in
  Done e (set_conn nc (set_writer w c)).

Definition close (g : goroutine) : M (option err) :=
  st ← gets state;
  if bool_decide (st = CONNECTED) then
    _ ← modify (set_state CLOSED);
    _ ← modify (set_error (Some ConnectionClosed));
    _ ← killGoroutines g;
    w ← gets writer;
    _ ← (if bool_decide (bufio.Buffered w > 0)
         then _ ← writer_Flush; mret tt else mret tt);
    mret None
  else if bool_decide (st = PAUSED) then
    _ ← modify (set_state CLOSED);
    _ ← modify (set_error (Some ConnectionClosed));
    mret None
  else mret (Some ConnectionClosed).

Definition conn_Close : M unit := modify (λ c, set_conn (net.Close (conn c)) c).

(** [closeWithError(err)], run by [g]. *)
Definition closeWithError (g : goroutine) (e : option err) : M (option err) :=
  if os.IsTimeout e then mret e
  else if errors.Is e (Sys EOF) || errors.Is e (Sys ErrClosedPipe) then
    pauseError ← pause g;
    if errors.Is pauseError ConnectionNotInitialized
    then mret (Some ConnectionNotInitialized)
    else mret (Some ConnectionPaused)
  else
    closeError ← close g;
    if errors.Is closeError ConnectionClosed
    then mret (Some ConnectionClosed)
    else
      _ ← modify (set_error e);
      _ ← conn_Close;
      mret e.

(** [Close()]; its callers are not the workers. *)
Definition Close : M (option err) :=
  e ← close User;
  if errors.Is e ConnectionClosed then mret None
  else _ ← conn_Close; mret e.

(** [Raw()]: the stream is [conn] of the resulting connection. *)
Definition Raw : M unit := _ ← close User; mret tt.

(** *** Writing *)

(** The non-blocking wake: [if len(c.flusher) == 0 { select { case
    c.flusher <- struct{}{}: default: } }]. Sending on a closed channel
    panics. *)
Definition wake_flusher : M unit := λ c,
  let f := flusher c in
  if bool_decide (pending f = 0) then
    if ch_closed f then Panics
    else if bool_decide (pending f < ch_cap f)
         then Done tt (set_flusher (mkChan (pending f + 1) (ch_cap f) false) c)
         else Done tt c
  else Done tt c.

(** What [WriteMessage] and [StreamConn.Write] do when the writer has
    failed with [e]. *)
Definition write_failed (e : syserror) : M (option err) :=
  st ← gets state;
  if bool_decide (st ≠ CONNECTED) then
    e' ← Error;
    mret (errors.WithContext e' WRITE)
  else closeWithError User (Some (Sys e)).

(** [WriteMessage(message, content)]; [content] is a [*[]byte]. *)
Definition WriteMessage (message : Message) (content : option (list byte))
    : M (option err) :=
  if match content with
     | Some p =>
         bool_decide (int_of_uint64 (protocol.ContentLength message) ≠ len p)
     | None => false
     end
  then mret (Some InvalidContentLength)
  else
    let encodedMessage := encodeMessage message in
    st ← gets state;
    if bool_decide (st ≠ CONNECTED) then Error
    else
      e ← writer_Write encodedMessage;
      match e with
      | Some e => write_failed e
      | None =>
          e ← match content with
              | Some p => writer_Write p
              | None => mret None
              end;
          match e with
          | Some e => write_failed e
          | None => _ ← wake_flusher; mret None
          end
      end.

(** [Flush()]. *)
Definition Flush : M (option err) :=
  w ← gets writer;
  if bool_decide (bufio.Buffered w > 0) then
    e ← writer_Flush;
    match e with
    | Some e => _ ← closeWithError User (Some (Sys e)); mret (Some (Sys e))
    | None => mret None
    end
  else mret None.

(** [WriteBufferSize()]. *)
Definition WriteBufferSize : M Z :=
  st ← gets state;
  if bool_decide (st ≠ CONNECTED) then mret 0
  else gets (λ c, bufio.Buffered (writer c)).

(** One round of [flushLoop] with a wake signal at hand; [true] when the
    worker goes on. The worker is the caller of [closeWithError] here. *)
Definition flushLoop_round : M bool :=
  w ← gets writer;
  if bool_decide (bufio.Buffered w > 0) then
    e ← writer_Flush;
    match e with
    | Some e => _ ← closeWithError Worker (Some (Sys e)); mret false
    | None => mret true
    end
  else mret true.

(** *** Reading *)

Definition queue_Pop : M (Packet + err) := λ c,
  match ringbuffer.Pop (incomingMessages c) with
  | ringbuffer.Popped p rb => Done (inl p) (set_incomingMessages rb c)
  | ringbuffer.PopErr e => Done (inr e) c
  | ringbuffer.PopBlocks => Blocks c
  end.

Definition queue_Push (p : Packet) : M (option err) := λ c,
  match ringbuffer.Push p (incomingMessages c) with
  | ringbuffer.Pushed rb => Done None (set_incomingMessages rb c)
  | ringbuffer.PushErr e => Done (Some e) c
  | ringbuffer.PushBlocks => Blocks c
  end.

(** [ReadMessage()]: header, payload, error. *)
Definition ReadMessage : M (option Message * option (list byte) * option err) :=
  st ← gets state;
  if bool_decide (st ≠ CONNECTED) then
    e ← Error; mret (None, None, e)
  else
    r ← queue_Pop;
    match r with
    | inr e =>
        st ← gets state;
        if bool_decide (st ≠ CONNECTED) then
          e' ← Error;
          mret (None, None, errors.WithContext e' POP)
        else
          e' ← closeWithError User (Some e);
          mret (None, None, errors.WithContext e' POP)
    | inl readPacket =>
        mret (Some (protocol.pMessage readPacket), protocol.Content readPacket, None)
    end.

(** *** Sub-streams *)

(** [NewStreamConn(id)]: a fresh object, registered under [id]. *)
Definition NewStreamConn (sid : Z) : M nat := λ c,
  let streamConn := length (heap c) in
  Done streamConn
       (set_streamConns (<[sid := streamConn]> (streamConns c))
          (set_heap (heap c ++ [mkStreamConn sid newIncomingBuffer false]) c)).

(** Dereferencing a [*StreamConn]. *)
Definition deref (s : nat) : M StreamConn := λ c,
  match heap c !! s with
  | Some o => Done o c
  | None => Panics
  end.

Definition StreamConn_ID (s : nat) : M Z := o ← deref s; mret (id o).

Definition StreamConn_Closed (s : nat) : M bool := o ← deref s; mret (closed o).

(** [s.closed.Store(v)]. *)
Definition closed_Store (s : nat) (v : bool) : M unit :=
  o ← deref s;
  modify (λ c, set_heap (<[s := mkStreamConn (id o) (incomingBuffer o) v]> (heap c)) c).

(** [s.incomingBuffer.buffer = b]. *)
Definition buffer_Store (s : nat) (b : bytes.Buffer) : M unit :=
  o ← deref s;
  modify (λ c, set_heap (<[s := mkStreamConn (id o) b (closed o)]> (heap c)) c).

(** [s.incomingBuffer.buffer.Write(p)]; the number of bytes written. *)
Definition buffer_Write (s : nat) (p : list byte) : M Z :=
  o ← deref s;
  match bytes.Write p (incomingBuffer o) with
  | None => panic
  | Some (k, b) => _ ← buffer_Store s b; mret k
  end.

Definition StreamConn_Close (s : nat) : M (option err) :=
  _ ← closed_Store s true;
  sid ← StreamConn_ID s;
  WriteMessage (protocol.mkMessage 0 0 sid STREAMCLOSE 0) None.

(** [Write(p)]: the number of bytes accepted and the error. *)
Definition StreamConn_Write (s : nat) (p : list byte) : M (Z * option err) :=
  sid ← StreamConn_ID s;
  let encodedMessage := encodeStreamHeader sid (uint64_of_int (len p)) in
  st ← gets state;
  if bool_decide (st ≠ CONNECTED) then
    e ← Error; mret (0, e)
  else
    cl ← StreamConn_Closed s;
    if (cl : bool) then mret (0, Some ConnectionClosed)
    else
      e ← writer_Write encodedMessage;
      match e with
      | Some e => e' ← write_failed e; mret (0, e')
      | None =>
          e ← writer_Write p;
          match e with
          | Some e => e' ← write_failed e; mret (0, e')
          | None => _ ← wake_flusher; mret (len p, None)
          end
      end.

(** [Read(p)] with [len(p) = room]: waits while the buffer is empty. *)
Definition StreamConn_Read (s : nat) (room : nat) : M (list byte * option err) :=
  st ← gets state;
  if bool_decide (st ≠ CONNECTED) then mret ([], Some ConnectionClosed)
  else
    o ← deref s;
    if closed o then mret ([], Some ConnectionClosed)
    else if bool_decide (bytes.Len (incomingBuffer o) = 0) then block
    else
      let '(data, b) := bytes.Read room (incomingBuffer o) in
      _ ← buffer_Store s b;
      mret (data, None).

(** *** The reader worker *)

(** The worker's locals: the scratch buffer (its length is its capacity),
    the parse position and the number of valid bytes. *)
Record Reader : Type := mkReader {
  buf : list byte;
  index : Z;
  n : Z
}.

(** Where the worker stands: at the head of the outer loop, at the head of
    the inner loop (about to parse a header at [index]), returned, or going
    round the loop that grows a receive buffer with no way out of it. *)
Inductive pc : Type :=
| AtOuter (b : list byte)
| AtInner (r : Reader)
| Exited
| Spinning.

Inductive readres : Type :=
| ReadDone (b : list byte) (n : Z) (e : option syserror) (nc : NetConn)
| ReadPanics
| ReadStuck.

(** [for n < target { nn, err = c.conn.Read(buf[off+n:]); n += nn; if err
    != nil { ...; break } }]: leaves the loop with the error of the last
    read, if it failed. Each round takes a whole chunk or fills the buffer,
    so one round per chunk and one more are enough. *)
Fixpoint read_until (rounds : nat) (off target : Z) (b : list byte) (n : Z)
    (nc : NetConn) : readres :=
  if bool_decide (n < target) then
    match rounds with
    | O => ReadStuck
    | S rounds' =>
        match slice b (off + n) (len b) with
        | None => ReadPanics
        | Some room =>
            let '(data, e, nc') := net.Read (length room) nc in
            let b' := copy_at b (Z.to_nat (off + n)) data in
            let n' := n + len data in
            match e with
            | Some _ => ReadDone b' n' e nc'
            | None => read_until rounds' off target b' n' nc'
            end
        end
    end
  else ReadDone b n None nc.

Definition conn_read_until (off target : Z) (b : list byte) (n : Z)
    : M (list byte * Z * option syserror) := λ c,
  match read_until (S (length (inbound (conn c)))) off target b n (conn c) with
  | ReadDone b' n' e nc => Done (b', n', e) (set_conn nc c)
  | ReadPanics => Panics
  | ReadStuck => Blocks c
  end.

(** [bytes.MinRead]. *)
Definition MinRead : Z := 512.

Inductive copied : Type :=
| Copied (n : Z) (e : option syserror) (b : bytes.Buffer) (nc : NetConn)
| CopyPanics
| CopyStuck.

(** [b.ReadFrom(io.LimitReader(c.conn, left))], which is what [io.CopyN]
    on a [bytes.Buffer] comes to. Each round makes room for [MinRead]
    bytes and reads into all the room there is, though no more than [left]
    bytes; the limit reached, the reader answers [io.EOF], which ends the
    loop with a nil error, as the end of the stream does. [n] counts the
    bytes read. Every round that goes on takes a chunk off the stream or
    at least one byte off [left]. *)
Fixpoint buffer_ReadFrom (rounds : nat) (left n : Z) (b : bytes.Buffer)
    (nc : NetConn) : copied :=
  match rounds with
  | O => CopyStuck
  | S rounds' =>
      match bytes.grow MinRead b with
      | None => CopyPanics
      | Some b =>
          if bool_decide (left ≤ 0) then Copied n None b nc
          else
            let room := bytes.cap b - (bytes.off b + len (bytes.unread b)) in
            let '(data, e, nc') := net.Read (Z.to_nat (Z.min room left)) nc in
            let b' := bytes.mkBuffer (bytes.unread b ++ data) (bytes.off b)
                                     (bytes.cap b) in
            let n' := n + len data in
            match e with
            | Some e =>
                Copied n' (if bool_decide (e = EOF) then None else Some e) b' nc'
            | None => buffer_ReadFrom rounds' (left - len data) n' b' nc'
            end
      end
  end.

(** [io.CopyN(s.incomingBuffer.buffer, c.conn, need)]: the error. *)
Definition conn_CopyN (s : nat) (need : Z) : M (option syserror) :=
  o ← deref s;
  nc ← gets conn;
  match buffer_ReadFrom (2 + length (inbound nc) + Z.to_nat need) need 0
                        (incomingBuffer o) nc with
  | Copied written e b nc' =>
      _ ← modify (set_conn nc');
      _ ← buffer_Store s b;
      if bool_decide (written = need) then mret None
      else if bool_decide (written < need ∧ e = None) then mret (Some EOF)
      else mret e
  | CopyPanics => panic
  | CopyStuck => block
  end.

Inductive grown : Type :=
| Grown (b : bytes.Buffer)
| GrowPanics
| GrowSpins (b : bytes.Buffer).

(** [for b.Cap()-b.Len() < need { b.Grow(1 << 19) }], for at most [rounds]
    calls of [Grow]; [GrowSpins] when the test still holds after them. *)
Fixpoint grow_loop (rounds : nat) (need : Z) (b : bytes.Buffer) : grown :=
  if bool_decide (bytes.Cap b - bytes.Len b < need) then
    match rounds with
    | O => GrowSpins b
    | S rounds' =>
        match bytes.Grow (2 ^ 19) b with
        | None => GrowPanics
        | Some b' => grow_loop rounds' need b'
        end
    end
  else Grown b.

(** That loop on the receive buffer of [s]; [false] when it has no end.
    [Grow] leaves room for what it was asked for, so every call after the
    first changes nothing: where one call does not end the loop no number
    of calls does, and the worker goes round it for ever. *)
Definition buffer_grow (s : nat) (need : Z) : M bool :=
  o ← deref s;
  match grow_loop 1 need (incomingBuffer o) with
  | Grown b => _ ← buffer_Store s b; mret true
  | GrowPanics => panic
  | GrowSpins b => _ ← buffer_Store s b; mret false
  end.

(** The capacity [append] gives a full slice of capacity [c] that takes one
    more element. The choice is the runtime's; it is larger than [c]. *)
Definition growslice (c : Z) : Z := Z.max (c + 1) (2 * c).

(** [for cap(buf) < need { buf = append(buf[:cap(buf)], 0); buf =
    buf[:cap(buf)] }]. *)
Fixpoint grow_buf (rounds : nat) (b : list byte) (need : Z) : list byte :=
  match rounds with
  | O => b
  | S rounds' =>
      if bool_decide (len b < need)
      then grow_buf rounds'
             (b ++ replicate (Z.to_nat (growslice (len b) - len b)) x00) need
      else b
  end.

(** The [STREAMCLOSE] case: [streamConn := c.streamConns[id]; if streamConn
    != nil { streamConn.closed.Store(true); delete(c.streamConns, id) }]. *)
Definition streamClose (sid : Z) : M unit :=
  m ← gets streamConns;
  match m !! sid with
  | Some streamConn =>
      _ ← closed_Store streamConn true;
      modify (λ c, set_streamConns (delete sid (streamConns c)) c)
  | None => mret tt
  end.

(** The sub-stream a [STREAM] frame goes to, created and announced when the
    id is new. The announcement is dropped when the channel is full. *)
Definition streamFor (sid : Z) : M nat :=
  m ← gets streamConns;
  match m !! sid with
  | Some streamConn => mret streamConn
  | None =>
      streamConn ← NewStreamConn sid;
      _ ← modify (λ c, set_streamConns (<[sid := streamConn]> (streamConns c)) c);
      _ ← modify (λ c, if bool_decide (len (StreamConnCh c) < 1024)
                       then set_StreamConnCh (StreamConnCh c ++ [streamConn]) c
                       else c);
      mret streamConn
  end.

(** [for index < n]. *)
Definition loop_test (r : Reader) : pc :=
  if bool_decide (index r < n r) then AtInner r else AtOuter (buf r).

(** [if err != nil { if n < target { ...; return }; break }]: the error that
    ends the worker, if the read failed short of [target] bytes. *)
Definition read_failed (e : option syserror) (n target : Z) : option syserror :=
  match e with
  | Some e' => if bool_decide (n < target) then Some e' else None
  | None => None
  end.

(** The code at label [READ]. *)
Definition READ (r : Reader) : M pc :=
  if bool_decide (n r = index r) then
    if bool_decide (len (buf r) < Z.of_nat MessageSize) then
      _ ← closeWithError Worker (Some InvalidBufferLength);
      mret (AtOuter (buf r))
    else
      '(b, n', e) ← conn_read_until 0 (Z.of_nat MessageSize) (buf r) 0;
      match read_failed e n' (Z.of_nat MessageSize) with
      | Some e' => _ ← closeWithError Worker (Some (Sys e')); mret Exited
      | None => mret (loop_test (mkReader b 0 n'))
      end
  else if bool_decide (n r - index r < Z.of_nat MessageSize) then
    match slice (buf r) (index r) (n r) with
    | None => panic
    | Some rest =>
        let b := (copy (buf r) rest).2 in
        let n1 := n r - index r in
        let index1 := n1 in
        let min := Z.of_nat MessageSize - index1 in
        if bool_decide (len b < min) then
          _ ← closeWithError Worker (Some InvalidBufferLength);
          mret (AtOuter b)
        else
          '(b', n', e) ← conn_read_until index1 min b 0;
          match read_failed e n' min with
          | Some e' => _ ← closeWithError Worker (Some (Sys e')); mret Exited
          | None => mret (loop_test (mkReader b' 0 (n' + index1)))
          end
    end
  else mret (loop_test r).

(** [Push] of a decoded packet, then on to [READ]. *)
Definition push_packet (p : Packet) (r : Reader) : M pc :=
  e ← queue_Push p;
  match e with
  | Some e => _ ← closeWithError Worker (Some e); mret Exited
  | None => READ r
  end.

(** The [STREAM] case with a payload. *)
Definition streamData (decodedMessage : Message) (r : Reader) : M pc :=
  let cl := int_of_uint64 (protocol.ContentLength decodedMessage) in
  streamConn ← streamFor (protocol.Id decodedMessage);
  if bool_decide (n r - index r < cl) then
    grown ← buffer_grow streamConn cl;
    if (grown : bool) then
      match slice (buf r) (index r) (n r) with
      | None => panic
      | Some data =>
          cp ← buffer_Write streamConn data;
          let min := cl - cp in
          e ← conn_CopyN streamConn min;
          match e with
          | Some e => _ ← closeWithError Worker (Some (Sys e)); mret Exited
          | None => READ (mkReader (buf r) (n r) (n r))
          end
      end
    else mret Spinning
  else
    grown ← buffer_grow streamConn cl;
    if (grown : bool) then
      match slice (buf r) (index r) (index r + cl) with
      | None => panic
      | Some data =>
          cp ← buffer_Write streamConn data;
          READ (mkReader (buf r) (index r + cp) (n r))
      end
    else mret Spinning.

(** Any other operation with a payload. *)
Definition packetData (decodedMessage : Message) (r : Reader) : M pc :=
  let cl := int_of_uint64 (protocol.ContentLength decodedMessage) in
  if bool_decide (cl < 0) then panic
  else
    let readContent := replicate (Z.to_nat cl) x00 in
    if bool_decide (n r - index r < cl) then
      let b := grow_buf (Z.to_nat cl) (buf r) cl in
      match slice b (index r) (n r) with
      | None => panic
      | Some data =>
          let '(cp, readContent) := copy readContent data in
          let min := cl - cp in
          if bool_decide (len b < min) then
            _ ← closeWithError Worker (Some InvalidBufferLength); mret Exited
          else
            '(b', n', e) ← conn_read_until 0 min b 0;
            match read_failed e n' min with
            | Some e' => _ ← closeWithError Worker (Some (Sys e')); mret Exited
            | None =>
                match slice b' 0 min with
                | None => panic
                | Some data' =>
                    let readContent := copy_at readContent (Z.to_nat cp) data' in
                    push_packet (protocol.mkPacket decodedMessage (Some readContent))
                                (mkReader b' min n')
                end
            end
      end
    else
      match slice (buf r) (index r) (index r + cl) with
      | None => panic
      | Some data =>
          let readContent := (copy readContent data).2 in
          push_packet (protocol.mkPacket decodedMessage (Some readContent))
                      (mkReader (buf r) (index r + cl) (n r))
      end.

(** One round of the inner loop: the frame at [index]. *)
Definition frame (r : Reader) : M pc :=
  match checkReserved (buf r) (index r) with
  | None => panic
  | Some false => mret (AtOuter (buf r))
  | Some true =>
      match decodeMessage (buf r) (index r) with
      | None => panic
      | Some decodedMessage =>
          let r := mkReader (buf r) (index r + Z.of_nat MessageSize) (n r) in
          if bool_decide (protocol.Operation decodedMessage = STREAMCLOSE) then
            _ ← streamClose (protocol.Id decodedMessage);
            READ r
          else if bool_decide (protocol.ContentLength decodedMessage > 0) then
            if bool_decide (protocol.Operation decodedMessage = STREAM)
            then streamData decodedMessage r
            else packetData decodedMessage r
          else push_packet (protocol.mkPacket decodedMessage None) r
      end
  end.

(** The head of the outer loop: check the buffer and read a header. *)
Definition outer (b : list byte) : M pc :=
  if bool_decide (len b < Z.of_nat MessageSize) then
    _ ← closeWithError Worker (Some InvalidBufferLength); mret Exited
  else
    '(b', n', e) ← conn_read_until 0 (Z.of_nat MessageSize) b 0;
    match read_failed e n' (Z.of_nat MessageSize) with
    | Some e' => _ ← closeWithError Worker (Some (Sys e')); mret Exited
    | None => mret (loop_test (mkReader b' 0 n'))
    end.

Definition readLoop_step (p : pc) : M pc :=
  match p with
  | AtOuter b => outer b
  | AtInner r => frame r
  | Exited => mret Exited
  | Spinning => mret Spinning
  end.

(** [rounds] rounds of the worker, or fewer when it returns or gets into
    the loop that has no end. *)
Fixpoint readLoop_from (rounds : nat) (p : pc) : M pc :=
  match rounds with
  | O => mret p
  | S rounds' =>
      p' ← readLoop_step p;
      match p' with
      | Exited => mret Exited
      | Spinning => mret Spinning
      | _ => readLoop_from rounds' p'
      end
  end.

(** [readLoop()] starts with [buf := make([]byte, DefaultBufferSize)]. *)
Definition readLoop (rounds : nat) : M pc :=
  readLoop_from rounds (AtOuter (replicate (Z.to_nat DefaultBufferSize) x00)).

(** *** The client's router loop *)

(** The calls one round of [reactor] makes, in order. *)
Inductive call : Type :=
| CallHandler (incomingMessage : Message) (incomingContent : list byte)
| CallWriteMessage (message : Message) (content : option (list byte))
| CallClose.

#[global] Instance call_eq_dec : EqDecision call.
Proof. solve_decision. Defined.

(** How a round ends: the loop goes on, [reactor] returns, the runtime
    panics, or the worker is parked in [ReadMessage]. *)
Inductive reactor_result : Type :=
| Loops (cl : Client)
| Returns (cl : Client)
| Crashes
| Parks (cl : Client).

Definition with_conn (c : Conn) (cl : Client) : Client :=
  client.mkClient c (client.router cl) (client.closed cl).

(** [Client.Close()]: [c.closed.Store(true)], then [c.conn.Close()]. *)
Definition Client_Close (cl : Client) : outcome (option err) :=
  Close (client.conn cl).

Definition close_and_return (calls : list call) (cl : Client)
    : list call * reactor_result :=
  match Client_Close cl with
  | Done _ c => (calls ++ [CallClose], Returns (client.mkClient c (client.router cl) true))
  | Panics => (calls ++ [CallClose], Crashes)
  | Blocks c => (calls ++ [CallClose], Parks (client.mkClient c (client.router cl) true))
  end.

(** [switch action]. *)
Definition dispatch_action (action : Action) (calls : list call) (cl : Client)
    : list call * reactor_result :=
  match action with
  | CLOSE => close_and_return calls cl
  | SHUTDOWN => close_and_return calls cl
  | NONE => (calls, Loops cl)
  end.

(** One round of the loop of [reactor]. *)
Definition reactor_round (cl : Client) : list call * reactor_result :=
  if client.closed cl then ([], Returns cl)
  else
    match ReadMessage (client.conn cl) with
    | Panics => ([], Crashes)
    | Blocks c => ([], Parks (with_conn c cl))
    | Done (incomingMessage, incomingContent, e) c =>
        let cl := with_conn c cl in
        match e with
        | Some _ => close_and_return [] cl
        | None =>
            match incomingMessage with
            | None => ([], Crashes)
            | Some incomingMessage =>
                match client.router cl !! protocol.Operation incomingMessage with
                | None => ([], Loops cl)
                | Some routerFunc =>
                    let arg :=
                      if bool_decide (protocol.ContentLength incomingMessage = 0)
                      then []
                      else match incomingContent with
                           | None => []
                           | Some p => p
                           end in
                    let '(outgoingMessage, outgoingContent, action) :=
                      routerFunc incomingMessage arg in
                    let calls := [CallHandler incomingMessage arg] in
                    match outgoingMessage with
                    | Some om =>
                        if bool_decide (protocol.ContentLength om =
                                        uint64_of_int (len outgoingContent))
                        then
                          let calls :=
                            calls ++ [CallWriteMessage om (Some outgoingContent)] in
                          match WriteMessage om (Some outgoingContent) (client.conn cl) with
                          | Done (Some _) c => close_and_return calls (with_conn c cl)
                          | Done None c => dispatch_action action calls (with_conn c cl)
                          | Panics => (calls, Crashes)
                          | Blocks c => (calls, Parks (with_conn c cl))
                          end
                        else dispatch_action action calls cl
                    | None => dispatch_action action calls cl
                    end
                end
            end
        end
    end.

(** *** Runs of a connection *)

(** What can happen to a connection: an API call, a round of one of the two
    workers, or the peer and the network acting on the stream.
    [OpCloseWithError] stands for the calls of [closeWithError] out of code
    that is not represented here, none of which runs in a worker; every
    call site passes a non-nil error. *)
Inductive op : Type :=
| OpWriteMessage (message : Message) (content : option (list byte))
| OpReadMessage
| OpFlush
| OpWriteBufferSize
| OpRaw
| OpClose
| OpNewStreamConn (sid : Z)
| OpStreamWrite (s : nat) (p : list byte)
| OpStreamClose (s : nat)
| OpStreamRead (s : nat) (room : nat)
| OpFlushLoop
| OpReadLoop (p : pc)
| OpCloseWithError (e : err)
| OpPeerSends (chunk : list byte)
| OpStreamBreaks (e : syserror).

(** The connection a call leaves behind when it has returned or is not
    going to. *)
Definition after {A} (o : outcome A) : option Conn :=
  match o with
  | Done _ c => Some c
  | Blocks c => Some c
  | Panics => None
  end.

(** The flusher worker takes a wake signal, if there is one, and runs a
    round. *)
Definition flushLoop_take : M bool := λ c,
  let f := flusher c in
  if bool_decide (0 < pending f) then
    flushLoop_round (set_flusher (mkChan (pending f - 1) (ch_cap f) (ch_closed f)) c)
  else if ch_closed f then Done false c
  else Blocks c.

Definition run_op (o : op) (c : Conn) : option Conn :=
  match o with
  | OpWriteMessage m content => after (WriteMessage m content c)
  | OpReadMessage => after (ReadMessage c)
  | OpFlush => after (Flush c)
  | OpWriteBufferSize => after (WriteBufferSize c)
  | OpRaw => after (Raw c)
  | OpClose => after (Close c)
  | OpNewStreamConn sid => after (NewStreamConn sid c)
  | OpStreamWrite s p => after (StreamConn_Write s p c)
  | OpStreamClose s => after (StreamConn_Close s c)
  | OpStreamRead s room => after (StreamConn_Read s room c)
  | OpFlushLoop => after (flushLoop_take c)
  | OpReadLoop p =>
      match readLoop_step p c with
      | Done Spinning _ => None
      | o => after o
      end
  | OpCloseWithError e => after (closeWithError User (Some e) c)
  | OpPeerSends chunk =>
      Some (set_conn (mkNetConn (sent (conn c)) (inbound (conn c) ++ [chunk])
                                (wfail (conn c)) (nc_closed (conn c))) c)
  | OpStreamBreaks e =>
      Some (set_conn (mkNetConn (sent (conn c)) (inbound (conn c))
                                (Some e) (nc_closed (conn c))) c)
  end.

Fixpoint run_ops (os : list op) (c : Conn) : option Conn :=
  match os with
  | [] => Some c
  | o :: os' => c' ← run_op o c; run_ops os' c'
  end.

(** The connections a program can get to: [New] on some stream, then any
    run. A run has no step where the Go runtime panics, and none that
    takes the reader worker into the loop of [streamData] that has no end:
    with a worker that never returns, the wait in [killGoroutines] ends for
    no caller, and the statements about reachable connections leave such a
    connection out. *)
Inductive reachable : Conn → Prop :=
| reachable_New nc : reachable (New nc)
| reachable_step c o c' : reachable c → run_op o c = Some c' → reachable c'.

(** ** Invariants *)

(** [m] keeps [I]: from a connection that satisfies [I], it leaves one that
    does, whether it returns or is parked. *)
Definition keeps {A} (I : Conn → Prop) (m : M A) : Prop :=
  ∀ c, I c →
       match m c with
       | Done _ c' => I c'
       | Blocks c' => I c'
       | Panics => True
       end.

(** The invariant of the state machine: the last-error cell is never nil;
    it holds the initial [ConnectionClosed] while [CONNECTED], when the wake
    channel is open too, and [ConnectionPaused] while [PAUSED]. *)
Definition Inv (c : Conn) : Prop :=
  match state c with
  | CONNECTED => error c = Some ConnectionClosed ∧ ch_closed (flusher c) = false
  | PAUSED => error c = Some ConnectionPaused
  | CLOSED => is_Some (error c)
  end.

(** [c'] differs from [c] in nothing the invariant looks at. *)
Definition same_core (c c' : Conn) : Prop :=
  state c' = state c ∧ error c' = error c ∧
  ch_closed (flusher c') = ch_closed (flusher c).

(** [m] leaves the core alone. *)
Definition steady {A} (m : M A) : Prop :=
  ∀ c, match m c with
       | Done _ c' => same_core c c'
       | Blocks c' => same_core c c'
       | Panics => True
       end.

(** ** Vocabulary of the statements *)

(** Go slices hold fewer than 2^63 elements: [len] is an [int]. *)
Definition is_slice {A} (p : list A) : Prop := len p < 2 ^ 63.

(** The writer and the stream under it are in working order. *)
Definition healthy (c : Conn) : Prop :=
  bufio.werr (writer c) = None ∧ wfail (conn c) = None ∧
  nc_closed (conn c) = false ∧ 0 ≤ bufio.Available (writer c).

(** Every byte the connection has accepted for the peer, in order: what
    the stream has taken followed by what the writer still holds. *)
Definition outbound (c : Conn) : list byte :=
  sent (conn c) ++ bufio.buffered (writer c).

(** A [bytes.Buffer] as the library keeps it: the read position and the
    unread bytes lie within the array. *)
Definition buffer_ok (b : bytes.Buffer) : Prop :=
  0 ≤ bytes.off b ∧ bytes.off b + len (bytes.unread b) ≤ bytes.cap b.

(** * Properties *)

(** ** Bytes and big-endian integers *)

Lemma Z_of_byte_of_Z v : Z_of_byte (byte_of_Z v) = Z.land v 255.
Proof.
  unfold Z_of_byte, byte_of_Z.
  assert (Hr : 0 ≤ Z.land v 255 < 256).
  { change 255 with (Z.ones 8). rewrite Z.land_ones by lia. apply Z.mod_pos_bound. lia. }
  destruct (Byte.of_N (Z.to_N (Z.land v 255))) as [b|] eqn:E; simpl.
  - apply Byte.to_of_N in E. rewrite E. lia.
  - apply Byte.of_N_None_iff in E. lia.
Qed.

Lemma testbit_255 k : 0 ≤ k → Z.testbit 255 k = bool_decide (k < 8).
Proof.
  intros Hk. change 255 with (Z.ones 8). rewrite Z.testbit_ones_nonneg by lia.
  case_bool_decide; lia.
Qed.

Lemma testbit_high v w k : 0 ≤ v < 2 ^ w → w ≤ k → Z.testbit v k = false.
Proof.
  intros [H0 H1] Hk.
  destruct (decide (v = 0)) as [->|Hne]; [apply Z.bits_0|].
  apply Z.bits_above_log2; [lia|].
  apply Z.log2_lt_pow2; [lia|].
  eapply Z.lt_le_trans; [exact H1|]. apply Z.pow_le_mono_r; lia.
Qed.

(** The byte of [v] at bit offset [j], put back in place, keeps the bits
    [j .. j+7] of [v]. *)
Lemma testbit_byte_at v j k :
  0 ≤ j → 0 ≤ k →
  Z.testbit (Z.shiftl (Z.land (Z.shiftr v j) 255) j) k
  = bool_decide (j ≤ k < j + 8) && Z.testbit v k.
Proof.
  intros Hj Hk. rewrite Z.shiftl_spec by lia.
  destruct (decide (k < j)) as [Hlt|Hge].
  - rewrite Z.testbit_neg_r by lia. rewrite bool_decide_eq_false_2 by lia. done.
  - rewrite Z.land_spec, Z.shiftr_spec, testbit_255 by lia.
    replace (k - j + j) with k by lia.
    rewrite andb_comm. f_equal. apply bool_decide_ext. lia.
Qed.

Lemma testbit_byte0 v k :
  0 ≤ k → Z.testbit (Z.land v 255) k = bool_decide (0 ≤ k < 8) && Z.testbit v k.
Proof.
  intros Hk. rewrite Z.land_spec, testbit_255 by lia.
  rewrite andb_comm. f_equal. apply bool_decide_ext. lia.
Qed.

Lemma Uint32_PutUint32 v :
  is_uint32 v → BigEndian.Uint32 (BigEndian.PutUint32 v) = Some v.
Proof.
  intros Hv. unfold BigEndian.Uint32, BigEndian.PutUint32. f_equal.
  rewrite !Z_of_byte_of_Z.
  apply Z.bits_inj'. intros k Hk.
  rewrite !Z.lor_spec, !testbit_byte_at, testbit_byte0 by lia.
  destruct (Z.testbit v k) eqn:E.
  - assert (k < 32).
    { destruct (decide (k < 32)); [done|].
      rewrite (testbit_high v 32 k) in E by (done || lia). done. }
    rewrite !andb_true_r. repeat case_bool_decide; try done; lia.
  - by rewrite !andb_false_r.
Qed.

Lemma Uint64_PutUint64 v :
  is_uint64 v → BigEndian.Uint64 (BigEndian.PutUint64 v) = Some v.
Proof.
  intros Hv. unfold BigEndian.Uint64, BigEndian.PutUint64. f_equal.
  rewrite !Z_of_byte_of_Z.
  apply Z.bits_inj'. intros k Hk.
  rewrite !Z.lor_spec, !testbit_byte_at, testbit_byte0 by lia.
  destruct (Z.testbit v k) eqn:E.
  - assert (k < 64).
    { destruct (decide (k < 64)); [done|].
      rewrite (testbit_high v 64 k) in E by (done || lia). done. }
    rewrite !andb_true_r. repeat case_bool_decide; try done; lia.
  - by rewrite !andb_false_r.
Qed.


(** ** The header codec *)

Lemma copy_at_mid {A} (pre old post new : list A) (off : nat) :
  off = length pre → length old = length new →
  copy_at (pre ++ old ++ post) off new = pre ++ new ++ post.
Proof.
  intros -> Hlen. unfold copy_at.
  replace (length pre) with (length pre + 0)%nat by lia.
  rewrite list_inserts_app_r. f_equal. by apply list_inserts_0_r.
Qed.

Lemma PutUint32_length v : length (BigEndian.PutUint32 v) = 4%nat.
Proof. done. Qed.
Lemma PutUint64_length v : length (BigEndian.PutUint64 v) = 8%nat.
Proof. done. Qed.

Lemma encodeMessage_fields (m : Message) :
  encodeMessage m =
    ReservedBytes ++ BigEndian.PutUint32 (protocol.From m)
                  ++ BigEndian.PutUint32 (protocol.To m)
                  ++ BigEndian.PutUint64 (protocol.Id m)
                  ++ BigEndian.PutUint32 (protocol.Operation m)
                  ++ BigEndian.PutUint64 (protocol.ContentLength m).
Proof.
  unfold encodeMessage.
  replace (replicate MessageSize x00) with
    ([] ++ replicate ReservedSize x00 ++ replicate 4 x00 ++ replicate 4 x00 ++
     replicate 8 x00 ++ replicate 4 x00 ++ replicate 8 x00 ++ ([] : list byte)).
  2:{ rewrite app_nil_r, app_nil_l, <- !replicate_add. f_equal.
      unfold MessageSize, ContentLengthOffset, OperationOffset, IdOffset, ToOffset,
        FromOffset, ReservedOffset, FromSize, ToSize, IdSize, OperationSize,
        ContentLengthSize. lia. }
  rewrite take_ge by done.
  rewrite (copy_at_mid []); [|done|by rewrite length_replicate].
  rewrite app_nil_l.
  rewrite (copy_at_mid ReservedBytes); [|done|done].
  rewrite (app_assoc ReservedBytes).
  rewrite (copy_at_mid (ReservedBytes ++ _)); [|rewrite length_app; done|done].
  rewrite (app_assoc (ReservedBytes ++ _)).
  rewrite (copy_at_mid ((ReservedBytes ++ _) ++ _)); [|rewrite !length_app; done|done].
  rewrite (app_assoc ((ReservedBytes ++ _) ++ _)).
  rewrite (copy_at_mid (((ReservedBytes ++ _) ++ _) ++ _)); [|rewrite !length_app; done|done].
  rewrite (app_assoc (((ReservedBytes ++ _) ++ _) ++ _)).
  rewrite (copy_at_mid ((((ReservedBytes ++ _) ++ _) ++ _) ++ _)); [|rewrite !length_app; done|done].
  rewrite app_nil_r, <- !app_assoc. done.
Qed.
Lemma slice_mid {A} (l pre x post : list A) (lo hi : Z) :
  l = pre ++ x ++ post → lo = len pre → hi = lo + len x →
  slice l lo hi = Some x.
Proof.
  intros -> -> ->. unfold slice, len.
  rewrite bool_decide_eq_true_2 by (rewrite !length_app; lia).
  f_equal. rewrite Nat2Z.id, drop_app_length.
  replace (Z.to_nat _) with (length x) by lia.
  by rewrite take_app_length.
Qed.

Lemma slice_length {A} (l x : list A) lo hi :
  slice l lo hi = Some x → len x = hi - lo ∧ 0 ≤ lo ∧ lo ≤ hi ∧ hi ≤ len l.
Proof.
  unfold slice, len. case_bool_decide; [|done]. intros [= <-].
  rewrite length_take, length_drop. lia.
Qed.

Ltac unfold_offsets :=
  unfold MessageSize, ContentLengthOffset, OperationOffset, IdOffset, ToOffset,
    FromOffset, ReservedOffset, FromSize, ToSize, IdSize, OperationSize,
    ContentLengthSize, ReservedSize in *.

Ltac solve_slice :=
  repeat split;
  first [ by rewrite <- ?app_assoc
        | unfold len; unfold_offsets; rewrite ?length_app; simpl; lia ].

Lemma slice_field (pre0 pre x post : list byte) (off sz : nat) :
  off = length pre → sz = length x →
  slice (pre0 ++ pre ++ x ++ post) (len pre0 + Z.of_nat off)
        (len pre0 + Z.of_nat off + Z.of_nat sz) = Some x.
Proof.
  intros -> ->. apply (slice_mid _ (pre0 ++ pre) x post).
  - by rewrite <- app_assoc.
  - unfold len. rewrite length_app. lia.
  - unfold len. lia.
Qed.

Lemma decodeMessage_encodeMessage pre m rest :
  protocol.wf m →
  decodeMessage (pre ++ encodeMessage m ++ rest) (len pre) = Some m.
Proof.
  intros (HF & HT & HI & HO & HC). destruct m as [f t i o c].
  cbn [protocol.From protocol.To protocol.Id protocol.Operation
       protocol.ContentLength] in *.
  unfold decodeMessage. rewrite encodeMessage_fields.
  cbn [protocol.From protocol.To protocol.Id protocol.Operation
       protocol.ContentLength].
  set (bf := BigEndian.PutUint32 f). set (bt := BigEndian.PutUint32 t).
  set (bi := BigEndian.PutUint64 i). set (bo := BigEndian.PutUint32 o).
  set (bc := BigEndian.PutUint64 c).
  assert (E1 : slice (pre ++ (ReservedBytes ++ bf ++ bt ++ bi ++ bo ++ bc) ++ rest)
                 (len pre + Z.of_nat FromOffset)
                 (len pre + Z.of_nat FromOffset + Z.of_nat FromSize) = Some bf).
  { rewrite <- !app_assoc. by apply (slice_field pre ReservedBytes bf). }
  assert (E2 : slice (pre ++ (ReservedBytes ++ bf ++ bt ++ bi ++ bo ++ bc) ++ rest)
                 (len pre + Z.of_nat ToOffset)
                 (len pre + Z.of_nat ToOffset + Z.of_nat ToSize) = Some bt).
  { rewrite <- !app_assoc. rewrite (app_assoc ReservedBytes bf).
    apply (slice_field pre (ReservedBytes ++ bf) bt); [|done].
    by rewrite length_app. }
  assert (E3 : slice (pre ++ (ReservedBytes ++ bf ++ bt ++ bi ++ bo ++ bc) ++ rest)
                 (len pre + Z.of_nat IdOffset)
                 (len pre + Z.of_nat IdOffset + Z.of_nat IdSize) = Some bi).
  { rewrite <- !app_assoc. rewrite (app_assoc bf bt), (app_assoc ReservedBytes).
    apply (slice_field pre (ReservedBytes ++ bf ++ bt) bi); [|done].
    rewrite !length_app. unfold_offsets. cbn. lia. }
  assert (E4 : slice (pre ++ (ReservedBytes ++ bf ++ bt ++ bi ++ bo ++ bc) ++ rest)
                 (len pre + Z.of_nat OperationOffset)
                 (len pre + Z.of_nat OperationOffset + Z.of_nat OperationSize)
               = Some bo).
  { rewrite <- !app_assoc.
    rewrite (app_assoc bt bi), (app_assoc bf), (app_assoc ReservedBytes).
    apply (slice_field pre (ReservedBytes ++ bf ++ bt ++ bi) bo); [|done].
    rewrite !length_app. unfold_offsets. cbn. lia. }
  assert (E5 : slice (pre ++ (ReservedBytes ++ bf ++ bt ++ bi ++ bo ++ bc) ++ rest)
                 (len pre + Z.of_nat ContentLengthOffset)
                 (len pre + Z.of_nat ContentLengthOffset + Z.of_nat ContentLengthSize)
               = Some bc).
  { rewrite <- !app_assoc.
    rewrite (app_assoc bi bo), (app_assoc bt), (app_assoc bf), (app_assoc ReservedBytes).
    apply (slice_field pre (ReservedBytes ++ bf ++ bt ++ bi ++ bo) bc); [|done].
    rewrite !length_app. unfold_offsets. cbn. lia. }
  rewrite E1, E2, E3, E4, E5. cbn [mbind option_bind].
  subst bf bt bi bo bc.
  rewrite !Uint32_PutUint32, !Uint64_PutUint64 by done. done.
Qed.

Lemma checkReserved_encodeMessage pre m rest :
  checkReserved (pre ++ encodeMessage m ++ rest) (len pre) = Some true.
Proof.
  unfold checkReserved. rewrite encodeMessage_fields.
  rewrite <- !app_assoc.
  pose proof (slice_field pre [] ReservedBytes
    (BigEndian.PutUint32 (protocol.From m) ++
     BigEndian.PutUint32 (protocol.To m) ++
     BigEndian.PutUint64 (protocol.Id m) ++
     BigEndian.PutUint32 (protocol.Operation m) ++
     BigEndian.PutUint64 (protocol.ContentLength m) ++ rest)
    ReservedOffset ReservedSize eq_refl eq_refl) as E.
  cbn [app] in E. rewrite E.
  cbn [mbind option_bind]. by rewrite bool_decide_eq_true_2.
Qed.

(** ** The invariant holds on every run *)

Lemma keeps_ret {A} I (a : A) : keeps I (mret a).
Proof. intros c H. exact H. Qed.

Lemma keeps_bind {A B} I (m : M A) (f : A → M B) :
  keeps I m → (∀ a, keeps I (f a)) → keeps I (m ≫= f).
Proof.
  intros Hm Hf c H. specialize (Hm c H). unfold mbind, M_bind.
  destruct (m c) as [a c'| |c']; [by apply Hf|done|done].
Qed.

Lemma keeps_gets {A} I (f : Conn → A) : keeps I (gets f).
Proof. intros c H. exact H. Qed.

Lemma keeps_panic {A} I : keeps I (panic : M A).
Proof. intros c H. exact Logic.I. Qed.

Lemma keeps_block {A} I : keeps I (block : M A).
Proof. intros c H. exact H. Qed.

Lemma same_core_refl c : same_core c c.
Proof. done. Qed.

Lemma same_core_trans c1 c2 c3 :
  same_core c1 c2 → same_core c2 c3 → same_core c1 c3.
Proof. unfold same_core. intros (-> & -> & ->) (-> & -> & ->). done. Qed.

Lemma Inv_same_core c c' : same_core c c' → Inv c → Inv c'.
Proof. unfold same_core, Inv. intros (-> & -> & ->). done. Qed.

Lemma steady_keeps {A} (m : M A) : steady m → keeps Inv m.
Proof.
  intros Hm c H. specialize (Hm c).
  destruct (m c); eauto using Inv_same_core.
Qed.

Lemma steady_ret {A} (a : A) : steady (mret a).
Proof. intros c. apply same_core_refl. Qed.

Lemma steady_bind {A B} (m : M A) (f : A → M B) :
  steady m → (∀ a, steady (f a)) → steady (m ≫= f).
Proof.
  intros Hm Hf c. specialize (Hm c). unfold mbind, M_bind.
  destruct (m c) as [a c'| |c']; [|done|done].
  specialize (Hf a c'). destruct (f a c'); eauto using same_core_trans.
Qed.

Lemma steady_gets {A} (f : Conn → A) : steady (gets f).
Proof. intros c. apply same_core_refl. Qed.

Lemma steady_modify (f : Conn → Conn) :
  (∀ c, same_core c (f c)) → steady (modify f).
Proof. intros Hf c. apply Hf. Qed.

Lemma steady_panic {A} : steady (panic : M A).
Proof. intros c. exact I. Qed.

Lemma steady_block {A} : steady (block : M A).
Proof. intros c. apply same_core_refl. Qed.

Create HintDb steady.
Create HintDb keeps.

(** Splits a computation along its binds and case distinctions. *)
Ltac steady_tac :=
  repeat first
    [ apply steady_ret | apply steady_gets | apply steady_panic
    | apply steady_block
    | apply steady_modify; intros []; done
    | solve [auto with steady]
    | apply steady_bind; [|intros ?]
    | match goal with
      | |- steady (if ?b then _ else _) => destruct b
      | |- steady (match ?x with _ => _ end) => destruct x
      end ].

Ltac keeps_tac :=
  repeat first
    [ apply keeps_ret | apply keeps_gets | apply keeps_panic
    | apply keeps_block
    | solve [auto with keeps]
    | solve [apply steady_keeps; steady_tac]
    | apply keeps_bind; [|intros ?]
    | match goal with
      | |- keeps _ (if ?b then _ else _) => destruct b
      | |- keeps _ (match ?x with _ => _ end) => destruct x
      end ].

Lemma steady_writer_Flush : steady writer_Flush.
Proof.
  intros c. unfold writer_Flush.
  destruct (bufio.Flush (writer c) (conn c)) as [[e w] nc]. done.
Qed.

Lemma steady_writer_Write p : steady (writer_Write p).
Proof.
  intros c. unfold writer_Write.
  destruct (bufio.Write p (writer c) (conn c)) as [[[k e] w] nc]. done.
Qed.

Lemma steady_queue_Pop : steady queue_Pop.
Proof. intros c. unfold queue_Pop. by destruct (ringbuffer.Pop _). Qed.

Lemma steady_queue_Push p : steady (queue_Push p).
Proof. intros c. unfold queue_Push. by destruct (ringbuffer.Push _ _). Qed.

Lemma steady_wake_flusher : steady wake_flusher.
Proof.
  intros c. unfold wake_flusher.
  case_bool_decide; [|done].
  destruct (ch_closed (flusher c)) eqn:E; [done|].
  case_bool_decide; [|done]. by destruct c.
Qed.

Lemma steady_deref s : steady (deref s).
Proof. intros c. unfold deref. by destruct (heap c !! s). Qed.

Lemma steady_NewStreamConn sid : steady (NewStreamConn sid).
Proof. intros c. done. Qed.

Lemma steady_conn_Close : steady conn_Close.
Proof. intros c. done. Qed.

Lemma steady_conn_read_until off target b n : steady (conn_read_until off target b n).
Proof. intros c. unfold conn_read_until. by destruct (read_until _ _ _ _ _ _). Qed.

#[local] Hint Resolve steady_writer_Flush steady_writer_Write steady_queue_Pop
  steady_queue_Push steady_wake_flusher steady_deref steady_NewStreamConn
  steady_conn_Close steady_conn_read_until : steady.

Lemma steady_Error : steady Error.
Proof. apply steady_gets. Qed.

Lemma steady_closed_Store s v : steady (closed_Store s v).
Proof. unfold closed_Store. steady_tac. Qed.

Lemma steady_buffer_Store s b : steady (buffer_Store s b).
Proof. unfold buffer_Store. steady_tac. Qed.

#[local] Hint Resolve steady_buffer_Store : steady.

Lemma steady_buffer_Write s p : steady (buffer_Write s p).
Proof. unfold buffer_Write. steady_tac. Qed.

Lemma steady_buffer_grow s need : steady (buffer_grow s need).
Proof. unfold buffer_grow. steady_tac. Qed.

Lemma steady_StreamConn_ID s : steady (StreamConn_ID s).
Proof. unfold StreamConn_ID. steady_tac. Qed.

Lemma steady_StreamConn_Closed s : steady (StreamConn_Closed s).
Proof. unfold StreamConn_Closed. steady_tac. Qed.

#[local] Hint Resolve steady_Error steady_closed_Store steady_buffer_Write
  steady_buffer_grow steady_StreamConn_ID steady_StreamConn_Closed : steady.

Lemma steady_conn_CopyN s need : steady (conn_CopyN s need).
Proof. unfold conn_CopyN. steady_tac. Qed.

Lemma steady_streamClose sid : steady (streamClose sid).
Proof. unfold streamClose. steady_tac. Qed.

Lemma steady_streamFor sid : steady (streamFor sid).
Proof.
  unfold streamFor. steady_tac.
  apply steady_modify. intros c. case_bool_decide; by destruct c.
Qed.

Lemma steady_StreamConn_Read s room : steady (StreamConn_Read s room).
Proof. unfold StreamConn_Read. steady_tac. Qed.

Lemma steady_WriteBufferSize : steady WriteBufferSize.
Proof. unfold WriteBufferSize. steady_tac. Qed.

#[local] Hint Resolve steady_conn_CopyN steady_streamClose steady_streamFor
  steady_StreamConn_Read steady_WriteBufferSize : steady.

(** *** The three state-changing functions *)

(** Unfolds the monadic layer of the state-changing functions. *)
Ltac munfold :=
  unfold close, pause, killGoroutines, wg_Wait, close_flusher, conn_Close, Error,
    writer_Flush, modify, gets, panic, block, mbind, M_bind, mret, M_ret in *.

(** Reads fields through the setters. *)
Ltac fields :=
  unfold set_conn, set_state, set_writer, set_flusher, set_incomingMessages,
    set_streamConns, set_StreamConnCh, set_wg, set_error, set_heap in *;
  cbn [conn state writer flusher incomingMessages streamConns StreamConnCh
       wg error heap pending ch_cap ch_closed] in *.

(** Settles the tests on constants that unfolding leaves behind. *)
Ltac decide_tests :=
  repeat match goal with
    | |- context [bool_decide (?a = ?b)] =>
        first [ rewrite (bool_decide_eq_true_2 (a = b)) by done
              | rewrite (bool_decide_eq_false_2 (a = b)) by done ]
    | |- context [bool_decide (?a ≠ ?b)] =>
        first [ rewrite (bool_decide_eq_true_2 (a ≠ b)) by done
              | rewrite (bool_decide_eq_false_2 (a ≠ b)) by (by intros []) ]
    end.

Lemma keeps_pause who : keeps Inv (pause who).
Proof.
  intros [nc st w f q sc ch g e h] H. unfold Inv in *; cbn in H.
  destruct st; munfold; fields; decide_tests; fields; [|done|done].
  destruct H as [-> Hf]. rewrite Hf. by destruct who.
Qed.

Lemma keeps_close who : keeps Inv (close who).
Proof.
  intros [nc st w f q sc ch g e h] H. unfold Inv in *; cbn in H.
  destruct st; munfold; fields; decide_tests; fields; [|done|eauto].
  destruct H as [-> Hf]. rewrite Hf.
  destruct who; fields; [eauto|].
  case_bool_decide; fields; [|eauto].
  destruct (bufio.Flush w nc) as [[e' w'] nc']. fields. eauto.
Qed.

(** When [close] returns nil it has won the transition: the connection is
    [CLOSED]. *)
Lemma close_nil_CLOSED who c ce c' :
  close who c = Done ce c' → errors.Is ce ConnectionClosed = false →
  state c' = CLOSED.
Proof.
  destruct c as [nc st w f q sc ch g e0 h].
  destruct st; munfold; fields; decide_tests; fields.
  - destruct (ch_closed f); [done|].
    destruct who; fields; [done|].
    case_bool_decide; fields.
    + destruct (bufio.Flush w nc) as [[e' w'] nc']. by intros [= <- <-].
    + by intros [= <- <-].
  - by intros [= <- <-].
  - by intros [= <- <-].
Qed.

Lemma keeps_closeWithError who e : keeps Inv (closeWithError who (Some e)).
Proof.
  intros c H. unfold closeWithError.
  destruct (os.IsTimeout (Some e)); [exact H|].
  destruct (errors.Is (Some e) (Sys EOF) || errors.Is (Some e) (Sys ErrClosedPipe)).
  - pose proof (keeps_pause who c H) as Hp. unfold mbind, M_bind.
    destruct (pause who c) as [pe c'| |]; [|done|done].
    by destruct (errors.Is pe ConnectionNotInitialized).
  - pose proof (keeps_close who c H) as Hc. unfold mbind, M_bind.
    destruct (close who c) as [ce c'| |] eqn:E; [|done|done].
    destruct (errors.Is ce ConnectionClosed) eqn:Eis; [done|].
    pose proof (close_nil_CLOSED _ _ _ _ E Eis) as Hst.
    cbn. unfold Inv. destruct c'; cbn in *. rewrite Hst. done.
Qed.

#[local] Hint Resolve keeps_pause keeps_close keeps_closeWithError : keeps.

(** *** The calls and the workers *)

Lemma keeps_write_failed e : keeps Inv (write_failed e).
Proof. unfold write_failed. keeps_tac. Qed.

#[local] Hint Resolve keeps_write_failed : keeps.

Lemma keeps_WriteMessage m content : keeps Inv (WriteMessage m content).
Proof. unfold WriteMessage. keeps_tac. Qed.

Lemma keeps_ReadMessage : keeps Inv ReadMessage.
Proof. unfold ReadMessage. keeps_tac. Qed.

Lemma keeps_Flush : keeps Inv Flush.
Proof. unfold Flush. keeps_tac. Qed.

Lemma keeps_Raw : keeps Inv Raw.
Proof. unfold Raw. keeps_tac. Qed.

Lemma keeps_Close : keeps Inv Close.
Proof. unfold Close. keeps_tac. Qed.

Lemma keeps_StreamConn_Write s p : keeps Inv (StreamConn_Write s p).
Proof. unfold StreamConn_Write. keeps_tac. Qed.

#[local] Hint Resolve keeps_WriteMessage : keeps.

Lemma keeps_StreamConn_Close s : keeps Inv (StreamConn_Close s).
Proof. unfold StreamConn_Close. keeps_tac. Qed.

Lemma keeps_flushLoop_round : keeps Inv flushLoop_round.
Proof. unfold flushLoop_round. keeps_tac. Qed.

Lemma keeps_flushLoop_take : keeps Inv flushLoop_take.
Proof.
  intros c H. unfold flushLoop_take.
  case_bool_decide.
  - apply keeps_flushLoop_round. by destruct c.
  - by destruct (ch_closed (flusher c)).
Qed.

Lemma keeps_READ r : keeps Inv (READ r).
Proof. unfold READ. keeps_tac. Qed.

#[local] Hint Resolve keeps_READ : keeps.

Lemma keeps_push_packet p r : keeps Inv (push_packet p r).
Proof. unfold push_packet. keeps_tac. Qed.

#[local] Hint Resolve keeps_push_packet : keeps.

Lemma keeps_streamData m r : keeps Inv (streamData m r).
Proof. unfold streamData. keeps_tac. Qed.

Lemma keeps_packetData m r : keeps Inv (packetData m r).
Proof. unfold packetData. keeps_tac. Qed.

#[local] Hint Resolve keeps_streamData keeps_packetData : keeps.

Lemma keeps_frame r : keeps Inv (frame r).
Proof. unfold frame. keeps_tac. Qed.

Lemma keeps_outer b : keeps Inv (outer b).
Proof. unfold outer. keeps_tac. Qed.

Lemma keeps_readLoop_step p : keeps Inv (readLoop_step p).
Proof.
  destruct p; cbn; [apply keeps_outer|apply keeps_frame|apply keeps_ret..].
Qed.

Lemma keeps_after {A} (m : M A) c c' :
  keeps Inv m → Inv c → after (m c) = Some c' → Inv c'.
Proof.
  intros Hm H E. specialize (Hm c H).
  destruct (m c); cbn in E; by inversion E; subst.
Qed.

(** A step of the reader worker that counts in a run is a call that has
    returned or is not going to. *)
Lemma run_op_ReadLoop p c c' :
  run_op (OpReadLoop p) c = Some c' → after (readLoop_step p c) = Some c'.
Proof.
  cbn [run_op]. destruct (readLoop_step p c) as [p' c1| |c1]; [|done|done].
  by destruct p'.
Qed.

Lemma Inv_run_op o c c' : Inv c → run_op o c = Some c' → Inv c'.
Proof.
  intros H E. destruct o; try apply run_op_ReadLoop in E; cbn [run_op] in E;
    try (eapply keeps_after; [|exact H|exact E]).
  - apply keeps_WriteMessage.
  - apply keeps_ReadMessage.
  - apply keeps_Flush.
  - apply steady_keeps, steady_WriteBufferSize.
  - apply keeps_Raw.
  - apply keeps_Close.
  - apply steady_keeps, steady_NewStreamConn.
  - apply keeps_StreamConn_Write.
  - apply keeps_StreamConn_Close.
  - apply steady_keeps, steady_StreamConn_Read.
  - apply keeps_flushLoop_take.
  - apply keeps_readLoop_step.
  - apply keeps_closeWithError.
  - inversion E; subst. by destruct c.
  - inversion E; subst. by destruct c.
Qed.

Lemma reachable_Inv c : reachable c → Inv c.
Proof.
  induction 1 as [nc|c o c' _ IH E]; [done|].
  eapply Inv_run_op; eauto.
Qed.

Lemma reachable_run_ops os c c' :
  reachable c → run_ops os c = Some c' → reachable c'.
Proof.
  revert c. induction os as [|o os IH]; intros c Hc E; cbn in E.
  - by inversion E; subst.
  - destruct (run_op o c) as [c1|] eqn:E1; [|done]. cbn in E.
    eapply IH; [|exact E]. by eapply reachable_step.
Qed.

(** ** State changes *)

Lemma Is_EOF_not_timeout e :
  errors.Is e (Sys EOF) || errors.Is e (Sys ErrClosedPipe) = true →
  os.IsTimeout e = false.
Proof.
  destruct e as [e|]; [|done]. cbn.
  destruct e as [s| | | | | | | |e' ctx]; try done.
  destruct s; done.
Qed.

Lemma reachable_CONNECTED c :
  reachable c → state c = CONNECTED →
  error c = Some ConnectionClosed ∧ ch_closed (flusher c) = false.
Proof. intros H%reachable_Inv Hst. unfold Inv in H. by rewrite Hst in H. Qed.

Lemma pause_CONNECTED who c :
  state c = CONNECTED → ch_closed (flusher c) = false →
  ∃ c', pause who c = match who with
                      | User => Done None c'
                      | Worker => Blocks c'
                      end ∧
        state c' = PAUSED ∧ error c' = Some ConnectionPaused ∧
        conn c' = conn c ∧ writer c' = writer c.
Proof.
  destruct c as [nc st w f q sc ch g e h]; cbn. intros -> Hf.
  destruct f as [pn cp cl]; cbn in Hf; subst cl.
  munfold; fields; decide_tests; fields. destruct who; eauto 10.
Qed.

Lemma close_CONNECTED c :
  state c = CONNECTED → ch_closed (flusher c) = false →
  ∃ c', close User c = Done None c' ∧ state c' = CLOSED ∧
        error c' = Some ConnectionClosed ∧
        nc_closed (conn c') = nc_closed (conn c).
Proof.
  destruct c as [nc st w f q sc ch g e h]; cbn. intros -> Hf.
  destruct f as [pn cp cl]; cbn in Hf; subst cl.
  munfold; fields; decide_tests; fields.
  case_bool_decide; fields; [|eauto 10].
  destruct (bufio.Flush w nc) as [[e' w'] nc'] eqn:E. fields.
  eexists; split_and!; try done. cbn.
  unfold bufio.Flush in E. destruct (bufio.werr w); [by inversion E|].
  case_bool_decide; [by inversion E|].
  unfold net.Write in E. destruct (nc_closed nc) eqn:Ecl.
  - cbn in E. case_bool_decide; inversion E; by subst.
  - destruct (wfail nc); cbn in E.
    + case_bool_decide; inversion E; by subst.
    + case_bool_decide; inversion E; by subst.
Qed.

(** A worker that closes the connection gets as far as the wait for the
    workers: the state and the error cell are set, the queue and the wake
    channel are closed, and nothing after that is done. *)
Lemma close_Worker_CONNECTED c :
  state c = CONNECTED → ch_closed (flusher c) = false →
  ∃ c', close Worker c = Blocks c' ∧ state c' = CLOSED ∧
        error c' = Some ConnectionClosed ∧
        conn c' = conn c ∧ writer c' = writer c.
Proof.
  destruct c as [nc st w f q sc ch g e h]; cbn. intros -> Hf.
  destruct f as [pn cp cl]; cbn in Hf; subst cl.
  munfold; fields; decide_tests; fields. eauto 10.
Qed.

(** C3: [closeWithError] on a running connection, by caller. A timeout is
    handed back and nothing changes, whoever calls. Called by a goroutine
    that is not one of the two workers, EOF or a closed pipe pauses the
    connection and yields [ConnectionPaused], and any other error closes
    the connection, is stored as the last error and is handed back, the
    stream closed. Called by a worker, as [readLoop] and [flushLoop] do,
    the state changes likewise but the call never returns, the worker
    waiting for its own return in [killGoroutines]: nothing is handed
    back, and for an error that closes the connection the last-error cell
    keeps [ConnectionClosed] and the stream is left as it was. *)
Theorem closeWithError_CONNECTED who c e :
  reachable c → state c = CONNECTED →
  (os.IsTimeout e = true → closeWithError who e c = Done e c) ∧
  (errors.Is e (Sys EOF) || errors.Is e (Sys ErrClosedPipe) = true →
   ∃ c', state c' = PAUSED ∧ error c' = Some ConnectionPaused ∧
         closeWithError who e c
         = match who with
           | User => Done (Some ConnectionPaused) c'
           | Worker => Blocks c'
           end) ∧
  (os.IsTimeout e = false →
   errors.Is e (Sys EOF) || errors.Is e (Sys ErrClosedPipe) = false →
   ∃ c', state c' = CLOSED ∧
         match who with
         | User => closeWithError who e c = Done e c' ∧ error c' = e ∧
                   nc_closed (conn c') = true
         | Worker => closeWithError who e c = Blocks c' ∧
                     error c' = Some ConnectionClosed ∧ conn c' = conn c
         end).
Proof.
  intros Hr Hst. destruct (reachable_CONNECTED c Hr Hst) as [_ Hf].
  unfold closeWithError. split_and!.
  - by intros ->.
  - intros HE. rewrite (Is_EOF_not_timeout e HE), HE.
    destruct (pause_CONNECTED who c Hst Hf) as (c' & Hp & Hst' & He' & _).
    exists c'. unfold mbind, M_bind. rewrite Hp. by destruct who.
  - intros -> ->. destruct who.
    + destruct (close_Worker_CONNECTED c Hst Hf) as (c' & Hc & Hst' & He' & Hco & _).
      exists c'. unfold mbind, M_bind. rewrite Hc. done.
    + destruct (close_CONNECTED c Hst Hf) as (c' & Hc & Hst' & _).
      unfold mbind, M_bind. rewrite Hc. cbn.
      eexists; split_and!; [|done| |]; by destruct c'.
Qed.

(** C4, as the code has it: in every reachable state [Error()] returns a
    non-nil error. It is the [ConnectionClosed] that [New] puts in the cell
    for as long as the connection is [CONNECTED], and [ConnectionPaused]
    while it is [PAUSED]. *)
Theorem Error_reachable c :
  reachable c →
  ∃ e, Error c = Done (Some e) c ∧
       (state c = CONNECTED → e = ConnectionClosed) ∧
       (state c = PAUSED → e = ConnectionPaused).
Proof.
  intros H%reachable_Inv. unfold Inv in H. unfold Error, gets.
  destruct (state c) eqn:Hst.
  - destruct H as [-> _]. by eexists.
  - destruct H as [e ->]. by exists e.
  - rewrite H. by eexists.
Qed.


(** ** Writing and reading *)

Lemma int_of_uint64_small v : 0 ≤ v < 2 ^ 63 → int_of_uint64 v = v.
Proof. intros H. unfold int_of_uint64. rewrite Z.mod_small; lia. Qed.

Lemma int_of_uint64_large v : 2 ^ 63 ≤ v < 2 ^ 64 → int_of_uint64 v < 0.
Proof.
  intros H. unfold int_of_uint64.
  replace (v + 2 ^ 63) with ((v - 2 ^ 63) + 1 * 2 ^ 64) by lia.
  rewrite Z.mod_add by lia. rewrite Z.mod_small; lia.
Qed.

(** For a [uint64] and a length, [int(v) == len(p)] says [v == len(p)]. *)
Lemma int_of_uint64_len {A} v (p : list A) :
  is_uint64 v → int_of_uint64 v = len p ↔ v = len p ∧ len p < 2 ^ 63.
Proof.
  intros Hv. unfold is_uint64 in Hv.
  assert (0 ≤ len p) by (unfold len; lia).
  destruct (decide (v < 2 ^ 63)).
  - rewrite int_of_uint64_small by lia. lia.
  - pose proof (int_of_uint64_large v). lia.
Qed.

(** C5: a non-nil payload whose length differs from the header's
    [ContentLength] makes [WriteMessage] fail with [InvalidContentLength]
    and leaves the connection as it was: writer buffer, wake channel and
    state included. *)
Theorem WriteMessage_InvalidContentLength c (m : Message) (p : list byte) :
  is_uint64 (protocol.ContentLength m) →
  len p ≠ protocol.ContentLength m →
  WriteMessage m (Some p) c = Done (Some InvalidContentLength) c.
Proof.
  intros Hm Hne. unfold WriteMessage.
  rewrite bool_decide_eq_true_2; [done|].
  intros E. apply int_of_uint64_len in E; [|done]. lia.
Qed.

Lemma reachable_error c : reachable c → ∃ e, error c = Some e.
Proof.
  intros H%reachable_Inv. unfold Inv in H.
  destruct (state c); [destruct H as [-> _]| |]; eauto.
Qed.

(** C2: on a connection that is not [CONNECTED], [WriteMessage],
    [ReadMessage] and a sub-stream's [Write] return a non-nil error and
    leave the whole connection, the stream and the buffered writer with it,
    untouched. *)
Theorem not_CONNECTED_untouched c :
  reachable c → state c ≠ CONNECTED →
  (∀ m content, ∃ e, WriteMessage m content c = Done (Some e) c) ∧
  (∃ e, ReadMessage c = Done (None, None, Some e) c) ∧
  (∀ s p, is_Some (heap c !! s) →
          ∃ e, StreamConn_Write s p c = Done (0, Some e) c).
Proof.
  intros Hr Hst.
  destruct (reachable_error c Hr) as (e & He).
  split_and!.
  - intros m content. unfold WriteMessage.
    destruct (match content with Some _ => _ | None => _ end); [by eexists|].
    exists e. munfold. decide_tests. by rewrite He.
  - exists e. unfold ReadMessage. munfold. decide_tests. by rewrite He.
  - intros s p [o Ho]. exists e. unfold StreamConn_Write, StreamConn_ID, deref.
    munfold. rewrite Ho. decide_tests. by rewrite He.
Qed.

(** C8, as the code has it: while the parent is not [CONNECTED], [Write] on
    a sub-stream returns 0 and the parent's stored error; while the parent
    is [CONNECTED] and the sub-stream is locally closed, it returns 0 and
    [ConnectionClosed]. In both cases the connection is left as it was. *)
Theorem StreamConn_Write_refused c s o p :
  heap c !! s = Some o →
  (state c ≠ CONNECTED → StreamConn_Write s p c = Done (0, error c) c) ∧
  (state c = CONNECTED → closed o = true →
   StreamConn_Write s p c = Done (0, Some ConnectionClosed) c).
Proof.
  intros Ho. unfold StreamConn_Write, StreamConn_ID, StreamConn_Closed, deref.
  munfold. rewrite Ho.
  split.
  - intros Hst. by decide_tests.
  - intros Hst Hcl. rewrite Hst. decide_tests. rewrite Ho. by rewrite Hcl.
Qed.

(** ** The buffered writer *)

Lemma bufio_Write_loop_fits r p nn b wr :
  len p ≤ bufio.Available b →
  bufio.Write_loop r p nn b wr = (p, nn, b, wr).
Proof.
  intros Hfit. destruct r; [done|]. cbn [bufio.Write_loop].
  rewrite bool_decide_eq_false_2 by lia. done.
Qed.

Lemma bufio_Write_loop_direct r p nn sz wr :
  wfail wr = None → nc_closed wr = false → len p > sz →
  bufio.Write_loop (S r) p nn (bufio.mkWriter [] sz None) wr
  = bufio.Write_loop r [] (nn + len p) (bufio.mkWriter [] sz None)
      (mkNetConn (sent wr ++ p) (inbound wr) None false).
Proof.
  intros Hw Hc Hbig. cbn [bufio.Write_loop].
  unfold bufio.Available, bufio.Buffered. cbn [bufio.size bufio.buffered bufio.werr].
  rewrite (bool_decide_eq_true_2 (len p > _ ∧ _)) by (unfold len in *; cbn; split; [lia|done]).
  rewrite (bool_decide_eq_true_2 (len [] = 0)) by done.
  unfold net.Write. rewrite Hc, Hw.
  rewrite drop_ge by (unfold len; lia). done.
Qed.

Lemma bufio_Write_loop_flush r p nn bf sz wr :
  wfail wr = None → nc_closed wr = false → bf ≠ [] →
  0 ≤ sz - len bf < len p →
  bufio.Write_loop (S r) p nn (bufio.mkWriter bf sz None) wr
  = bufio.Write_loop r (drop (Z.to_nat (sz - len bf)) p) (nn + (sz - len bf))
      (bufio.mkWriter [] sz None)
      (mkNetConn (sent wr ++ bf ++ take (Z.to_nat (sz - len bf)) p)
                 (inbound wr) None false).
Proof.
  intros Hw Hc Hne Hbig. cbn [bufio.Write_loop].
  unfold bufio.Available, bufio.Buffered. cbn [bufio.size bufio.buffered bufio.werr].
  rewrite (bool_decide_eq_true_2 (len p > _ ∧ _)) by (split; [lia|done]).
  rewrite (bool_decide_eq_false_2 (len bf = 0))
    by (destruct bf; [done|unfold len; cbn; lia]).
  unfold bufio.Flush. cbn [bufio.size bufio.buffered bufio.werr].
  rewrite (bool_decide_eq_false_2 (_ ++ _ = [])) by (by destruct bf).
  unfold net.Write. rewrite Hc, Hw.
  unfold bufio.Buffered. cbn [bufio.buffered].
  rewrite (bool_decide_eq_false_2 (_ < _ ∧ _)) by lia.
  done.
Qed.

(** With a writer and a stream in working order [Write] takes all of [p]:
    what was sent and what is buffered grow by exactly [p]. *)
Lemma bufio_Write_healthy p b wr :
  bufio.werr b = None → wfail wr = None → nc_closed wr = false →
  0 ≤ bufio.Available b →
  ∃ b' wr',
    bufio.Write p b wr = (len p, None, b', wr') ∧
    sent wr' ++ bufio.buffered b' = sent wr ++ bufio.buffered b ++ p ∧
    bufio.werr b' = None ∧ wfail wr' = None ∧ nc_closed wr' = false ∧
    0 ≤ bufio.Available b' ∧ inbound wr' = inbound wr ∧
    bufio.size b' = bufio.size b.
Proof.
  intros He Hw Hc Hav.
  destruct b as [bf sz we]; cbn in He; subst we.
  unfold bufio.Available in Hav; cbn in Hav.
  assert (Hlen : ∀ (x y : list byte), len (x ++ y) = len x + len y).
  { intros x y. unfold len. rewrite length_app. lia. }
  assert (Hnil : len ([] : list byte) = 0) by done.
  assert (Hbf : 0 ≤ len bf) by (unfold len; lia).
  unfold bufio.Write.
  destruct (decide (len p ≤ sz - len bf)) as [Hfit|Hbig].
  { rewrite bufio_Write_loop_fits by done. cbn.
    eexists _, _. split; [reflexivity|]. cbn. split_and!;
        first [ done
              | by rewrite ?app_nil_r, <- ?app_assoc, ?Hp
              | unfold bufio.Available; cbn; rewrite ?Hlen; lia ]. }
  destruct (decide (bf = [])) as [->|Hne].
  - (* empty buffer: [p] goes to the stream directly *)
    rewrite Hnil in *.
    rewrite bufio_Write_loop_direct by (done || lia).
    rewrite bufio_Write_loop_fits by (unfold bufio.Available; cbn; lia).
    cbn. rewrite Hnil. replace (0 + len p + 0) with (len p) by lia.
    eexists _, _. split; [reflexivity|]. cbn. split_and!;
        first [ done
              | by rewrite ?app_nil_r, <- ?app_assoc, ?Hp
              | unfold bufio.Available; cbn; rewrite ?Hlen; lia ].
  - (* fill the buffer, flush it, then take the rest *)
    rewrite bufio_Write_loop_flush by (done || lia).
    set (k := Z.to_nat (sz - len bf)).
    assert (Hp : take k p ++ drop k p = p) by apply take_drop.
    assert (Hk : len (take k p) = sz - len bf).
    { unfold k. unfold len in *. rewrite length_take. lia. }
    assert (Hd : len (drop k p) = len p - (sz - len bf)).
    { rewrite <- Hp at 2. rewrite Hlen. lia. }
    clearbody k.
    destruct (decide (len (drop k p) ≤ sz)) as [Hfit'|Hbig'].
    + rewrite bufio_Write_loop_fits by (unfold bufio.Available; cbn; lia).
      cbn. replace (0 + (sz - len bf) + len (drop k p)) with (len p) by lia.
      eexists _, _. split; [reflexivity|]. cbn. split_and!;
        first [ done
              | by rewrite ?app_nil_r, <- ?app_assoc, ?Hp
              | unfold bufio.Available; cbn; rewrite ?Hlen; lia ].
    + rewrite bufio_Write_loop_direct by (done || lia).
      rewrite bufio_Write_loop_fits by (unfold bufio.Available; cbn; lia).
      cbn. rewrite Hnil.
      replace (0 + (sz - len bf) + len (drop k p) + 0) with (len p) by lia.
      eexists _, _. split; [reflexivity|]. cbn. split_and!;
        first [ done
              | by rewrite ?app_nil_r, <- ?app_assoc, ?Hp
              | unfold bufio.Available; cbn; rewrite ?Hlen; lia ].
Qed.

(** ** [WriteMessage] on a running connection *)

Lemma writer_Write_healthy p c :
  healthy c →
  ∃ w nc, writer_Write p c = Done None (set_conn nc (set_writer w c)) ∧
          outbound (set_conn nc (set_writer w c)) = outbound c ++ p ∧
          healthy (set_conn nc (set_writer w c)) ∧
          inbound nc = inbound (conn c).
Proof.
  intros (He & Hw & Hc & Hav).
  destruct (bufio_Write_healthy p (writer c) (conn c) He Hw Hc Hav)
    as (b' & wr' & E & Hout & He' & Hw' & Hc' & Hav' & Hin & _).
  exists b', wr'. unfold writer_Write. rewrite E.
  unfold outbound, healthy. destruct c; cbn in *.
  rewrite Hout, <- app_assoc. done.
Qed.

Lemma wake_flusher_open c :
  ch_closed (flusher c) = false →
  ∃ f, wake_flusher c = Done tt (set_flusher f c) ∧ ch_closed f = false.
Proof.
  intros Hf. unfold wake_flusher. rewrite Hf.
  case_bool_decide; [case_bool_decide|].
  - by eexists.
  - exists (flusher c). by destruct c.
  - exists (flusher c). by destruct c.
Qed.

(** What [closeWithError] hands back for an error of the stream. *)
Lemma closeWithError_Sys who e c r c' :
  closeWithError who (Some (Sys e)) c = Done r c' →
  r = Some (Sys e) ∨ r = Some ConnectionPaused ∨
  r = Some ConnectionNotInitialized ∨ r = Some ConnectionClosed.
Proof.
  unfold closeWithError.
  destruct (os.IsTimeout _); [intros [= <- <- ]; auto|].
  destruct (_ || _).
  - unfold mbind, M_bind. destruct (pause who c) as [pe c1| |]; [|done|done].
    destruct (errors.Is pe ConnectionNotInitialized); intros E; inversion E; subst; auto.
  - unfold mbind, M_bind. destruct (close who c) as [ce c1| |]; [|done|done].
    destruct (errors.Is ce ConnectionClosed); intros E; inversion E; subst; auto.
Qed.

Lemma write_failed_result e c r c' :
  write_failed e c = Done r c' → r ≠ Some InvalidContentLength.
Proof.
  unfold write_failed. unfold mbind, M_bind, gets.
  case_bool_decide.
  - unfold Error, gets, mret, M_ret. intros E. inversion E as [[Hr Hc]].
    by destruct (error c').
  - intros [-> | [-> | [-> | ->]]]%closeWithError_Sys; done.
Qed.

(** On a running connection whose writer and stream work, [WriteMessage]
    succeeds, and the peer is owed exactly the encoded header followed by
    the payload. *)
Lemma WriteMessage_healthy c m content :
  reachable c → state c = CONNECTED → healthy c →
  match content with
  | Some p => int_of_uint64 (protocol.ContentLength m) = len p
  | None => True
  end →
  ∃ c', WriteMessage m content c = Done None c' ∧
        outbound c' = outbound c ++ encodeMessage m ++ default [] content ∧
        state c' = CONNECTED ∧ healthy c' ∧
        inbound (conn c') = inbound (conn c) ∧
        incomingMessages c' = incomingMessages c.
Proof.
  intros Hr Hst Hh Hlen.
  destruct (reachable_CONNECTED c Hr Hst) as [_ Hf].
  unfold WriteMessage.
  replace (match content with Some p => bool_decide _ | None => false end)
    with false.
  2:{ destruct content; [|done]. by rewrite bool_decide_eq_false_2 by (by intros []). }
  unfold mbind, M_bind, gets. rewrite Hst. decide_tests.
  destruct (writer_Write_healthy (encodeMessage m) c Hh)
    as (w1 & nc1 & E1 & Hout1 & Hh1 & Hin1).
  rewrite E1. set (c1 := set_conn nc1 (set_writer w1 c)) in *.
  destruct content as [p|].
  - destruct (writer_Write_healthy p c1 Hh1) as (w2 & nc2 & E2 & Hout2 & Hh2 & Hin2).
    rewrite E2. set (c2 := set_conn nc2 (set_writer w2 c1)) in *.
    destruct (wake_flusher_open c2) as (f & E3 & Hf3); [by destruct c|].
    rewrite E3. eexists. split; [reflexivity|].
    split_and!.
    + change (outbound (set_flusher f c2)) with (outbound c2).
      rewrite Hout2, Hout1, <- app_assoc. done.
    + by destruct c.
    + exact Hh2.
    + cbn. rewrite Hin2. exact Hin1.
    + by destruct c.
  - destruct (wake_flusher_open c1) as (f & E3 & Hf3); [by destruct c|].
    unfold mret, M_ret. rewrite E3. eexists. split; [reflexivity|].
    split_and!.
    + change (outbound (set_flusher f c1)) with (outbound c1).
      rewrite Hout1. cbn. by rewrite app_nil_r.
    + by destruct c.
    + exact Hh1.
    + exact Hin1.
    + by destruct c.
Qed.

Lemma encodeMessage_length m : length (encodeMessage m) = MessageSize.
Proof.
  unfold encodeMessage, copy_at. by rewrite !length_inserts, length_replicate.
Qed.

(** C10: with a nil payload the length check is skipped. On a running
    connection [WriteMessage] never answers [InvalidContentLength] for a
    header that announces a payload, and when the writer and the stream
    work it succeeds, having handed on the [MessageSize] bytes of the header
    and nothing else; those bytes still announce [ContentLength] bytes. *)
Theorem WriteMessage_nil_payload c m :
  reachable c → state c = CONNECTED → protocol.wf m →
  protocol.ContentLength m > 0 →
  (∀ r c', WriteMessage m None c = Done r c' → r ≠ Some InvalidContentLength) ∧
  (healthy c →
   ∃ c', WriteMessage m None c = Done None c' ∧
         outbound c' = outbound c ++ encodeMessage m ∧
         length (encodeMessage m) = MessageSize ∧
         decodeMessage (encodeMessage m) 0 = Some m).
Proof.
  intros Hr Hst Hwf Hcl. split.
  - intros r c'. unfold WriteMessage, mbind, M_bind, gets.
    rewrite Hst. decide_tests.
    destruct (writer_Write (encodeMessage m) c) as [[e|] c1| |] eqn:E1; try done.
    + apply write_failed_result.
    + unfold mret, M_ret.
      destruct (wake_flusher c1) as [[] c2| |]; [|done|done].
      by intros [= <- <-].
  - intros Hh.
    destruct (WriteMessage_healthy c m None Hr Hst Hh I) as (c' & E & Hout & _).
    exists c'. split_and!; [done| |apply encodeMessage_length|].
    + rewrite Hout. cbn. by rewrite app_nil_r.
    + pose proof (decodeMessage_encodeMessage [] m [] Hwf) as Hd.
      cbn in Hd. by rewrite app_nil_r in Hd.
Qed.

(** ** The reader worker *)

Lemma MessageSize_eq : MessageSize = (ReservedSize + 28)%nat.
Proof. unfold_offsets. lia. Qed.

Lemma streamClose_present c sid s o :
  streamConns c !! sid = Some s → heap c !! s = Some o →
  streamClose sid c
  = Done tt (set_streamConns (delete sid (streamConns c))
               (set_heap (<[s := mkStreamConn (id o) (incomingBuffer o) true]> (heap c)) c)).
Proof.
  intros Hm Ho. unfold streamClose, closed_Store, deref, mbind, M_bind, gets, modify.
  rewrite Hm, Ho. done.
Qed.

Lemma streamClose_absent c sid :
  streamConns c !! sid = None → streamClose sid c = Done tt c.
Proof.
  intros Hm. unfold streamClose, mbind, M_bind, gets. by rewrite Hm.
Qed.

(** With a whole header left after [r], [READ] goes straight on to parse
    it: nothing is read and nothing is skipped. *)
Lemma READ_next_header r c :
  Z.of_nat MessageSize ≤ n r - index r →
  READ r c = Done (AtInner r) c.
Proof.
  intros H. pose proof MessageSize_eq as HM.
  unfold READ, loop_test.
  rewrite (bool_decide_eq_false_2 (n r = index r)) by lia.
  rewrite (bool_decide_eq_false_2 (n r - index r < _)) by lia.
  rewrite (bool_decide_eq_true_2 (index r < n r)) by lia. done.
Qed.

(** *** The loop that grows a receive buffer *)

(** [grow] keeps the unread bytes and leaves room for what it was asked;
    an empty buffer is left with its read position at the start. *)
Lemma grow_fits n b b' :
  buffer_ok b → 0 ≤ n → bytes.grow n b = Some b' →
  buffer_ok b' ∧ bytes.fits n b' = true ∧ bytes.unread b' = bytes.unread b ∧
  bytes.cap b ≤ bytes.cap b' ∧ (bytes.Len b' = 0 → bytes.off b' = 0).
Proof.
  intros [Ho Hc] Hn. unfold bytes.grow, bytes.fits, bytes.Len, bytes.Reset.
  pose proof (Nat2Z.is_nonneg (length (bytes.unread b))) as Hl.
  fold (len (bytes.unread b)) in Hl.
  destruct b as [u o c]; cbn in *.
  assert (Hq : c `quot` 2 ≤ c) by (apply Z.quot_le_upper_bound; lia).
  destruct (decide (len u = 0 ∧ o ≠ 0)) as [[Hz Hne]|Hnr];
    [rewrite (bool_decide_eq_true_2 _ (conj Hz Hne))
    |rewrite (bool_decide_eq_false_2 _ Hnr)]; cbn.
  - assert (u = []) as -> by (by destruct u).
    change (len []) with 0 in *.
    case_bool_decide as Hfit; cbn.
    + intros [= <-]. unfold buffer_ok. cbn. change (len []) with 0.
      rewrite bool_decide_eq_true_2 by done. split_and!; [lia|lia|done|done|lia|done].
    + case_bool_decide as Hslide; [exfalso; apply Hfit; lia|].
      case_bool_decide; [done|]. intros [= <-]. unfold buffer_ok. cbn.
      change (len []) with 0. rewrite bool_decide_eq_true_2 by lia.
      split_and!; [lia|lia|done|done|lia|done].
  - case_bool_decide as Hfit; cbn.
    + intros [= <-]. unfold buffer_ok. cbn.
      rewrite bool_decide_eq_true_2 by done.
      split_and!; [lia|lia|done|done|lia|].
      intros Hz. destruct (decide (o = 0)); [done|]. by destruct Hnr.
    + case_bool_decide as Hslide.
      * intros [= <-]. unfold buffer_ok. cbn.
        rewrite bool_decide_eq_true_2 by lia. split_and!; [lia|lia|done|done|lia|done].
      * case_bool_decide; [done|]. intros [= <-]. unfold buffer_ok. cbn.
        rewrite bool_decide_eq_true_2 by lia. split_and!; [lia|lia|done|done|lia|done].
Qed.

(** [Grow(n)] changes nothing where there is room for [n] bytes, the read
    position of an empty buffer being at the start. *)
Lemma Grow_fits n b :
  0 ≤ n → bytes.fits n b = true → (bytes.Len b = 0 → bytes.off b = 0) →
  bytes.Grow n b = Some b.
Proof.
  intros Hn Hfit Hoff. unfold bytes.Grow, bytes.grow.
  rewrite bool_decide_eq_false_2 by lia.
  rewrite (bool_decide_eq_false_2 (bytes.Len b = 0 ∧ bytes.off b ≠ 0))
    by (intros [Hz Hne]; by apply Hne, Hoff).
  by rewrite Hfit.
Qed.

Lemma Grow_grow n b : 0 ≤ n → bytes.Grow n b = bytes.grow n b.
Proof. intros Hn. unfold bytes.Grow. by rewrite bool_decide_eq_false_2 by lia. Qed.

Lemma Grow_size_nonneg : 0 ≤ 2 ^ 19.
Proof. by vm_compute. Qed.

(** One call of [Grow] decides the loop: with the test still true after
    it, it stays true whatever the number of further calls, none of which
    changes the buffer. *)
Lemma grow_loop_once rounds need b :
  buffer_ok b →
  grow_loop (S rounds) need b = grow_loop 1 need b.
Proof.
  intros Hok. cbn [grow_loop].
  case_bool_decide as Htest; [|done].
  destruct (bytes.Grow (2 ^ 19) b) as [b1|] eqn:E; [|done].
  rewrite Grow_grow in E by apply Grow_size_nonneg.
  destruct (grow_fits _ _ _ Hok Grow_size_nonneg E) as (_ & Hfit & _ & _ & Hoff).
  clear E Htest Hok b.
  induction rounds as [|rounds IH]; [done|].
  cbn [grow_loop]. case_bool_decide as Htest; [|done].
  by rewrite (Grow_fits _ _ Grow_size_nonneg Hfit Hoff), IH.
Qed.

(** C7: a [STREAMCLOSE] frame. When the stream id is in the map, the
    sub-stream it points to gets its closed flag set and the id leaves the
    map; when it is not, the connection stays as it is. Either way the
    worker goes on at the byte after the header, whatever [ContentLength]
    says, and the stream is not read for this frame: with another header's
    worth of bytes in the buffer, the next thing parsed is the header right
    there. *)
Theorem frame_STREAMCLOSE r c m :
  checkReserved (buf r) (index r) = Some true →
  decodeMessage (buf r) (index r) = Some m →
  protocol.Operation m = STREAMCLOSE →
  let r' := mkReader (buf r) (index r + Z.of_nat MessageSize) (n r) in
  (∀ s o,
     streamConns c !! protocol.Id m = Some s → heap c !! s = Some o →
     ∃ c', frame r c = READ r' c' ∧
           heap c' = <[s := mkStreamConn (id o) (incomingBuffer o) true]> (heap c) ∧
           heap c' !! s = Some (mkStreamConn (id o) (incomingBuffer o) true) ∧
           streamConns c' = delete (protocol.Id m) (streamConns c) ∧
           streamConns c' !! protocol.Id m = None ∧
           conn c' = conn c ∧ incomingMessages c' = incomingMessages c) ∧
  (streamConns c !! protocol.Id m = None → frame r c = READ r' c) ∧
  (∀ c0, Z.of_nat MessageSize ≤ n r' - index r' →
         READ r' c0 = Done (AtInner r') c0).
Proof.
  intros Hres Hdec Hop r'. split_and!.
  - intros s o Hm Ho. eexists. split_and!.
    + unfold frame. rewrite Hres, Hdec.
      rewrite bool_decide_eq_true_2 by done.
      unfold mbind, M_bind. rewrite (streamClose_present _ _ _ _ Hm Ho). done.
    + done.
    + cbn. apply list_lookup_insert_eq. by eapply lookup_lt_Some.
    + done.
    + cbn. apply lookup_delete_eq.
    + done.
    + done.
  - intros Hm. unfold frame. rewrite Hres, Hdec.
    rewrite bool_decide_eq_true_2 by done.
    unfold mbind, M_bind. by rewrite (streamClose_absent _ _ Hm).
  - intros c0 H. by apply READ_next_header.
Qed.

(** ** The client's router loop *)

Lemma uint64_of_int_len {A} (p : list A) :
  is_slice p → uint64_of_int (len p) = len p.
Proof.
  unfold is_slice, uint64_of_int, len. intros H.
  apply Z.mod_small. lia.
Qed.

Lemma dispatch_action_calls action calls cl :
  ∃ tail, (dispatch_action action calls cl).1 = calls ++ tail ∧
          (tail = [] ∨ tail = [CallClose]).
Proof.
  unfold dispatch_action, close_and_return.
  destruct action; destruct (Client_Close cl); cbn;
    first [ by exists [CallClose]; auto | exists []; rewrite app_nil_r; auto ].
Qed.

Lemma close_and_return_calls calls cl :
  (close_and_return calls cl).1 = calls ++ [CallClose].
Proof. unfold close_and_return. by destruct (Client_Close cl). Qed.



End Frisbee.

(** * The statements at the sample data *)

Lemma ex_message_wf : protocol.wf ex_message.
Proof. unfold protocol.wf, is_uint32, is_uint64, ex_message; cbn. lia. Qed.

Lemma ex_connected_reachable :
  reachable ex_magic ex_STREAM ex_STREAMCLOSE ex_connected.
Proof.
  apply (reachable_run_ops ex_magic ex_STREAM ex_STREAMCLOSE
           [OpNewStreamConn 7] (New ex_stream));
    [apply reachable_New|vm_compute; reflexivity].
Qed.

Lemma ex_paused_reachable :
  reachable ex_magic ex_STREAM ex_STREAMCLOSE ex_paused.
Proof.
  apply (reachable_run_ops ex_magic ex_STREAM ex_STREAMCLOSE
           [OpNewStreamConn 7; OpReadLoop (AtOuter (replicate 64 x00))]
           (New ex_stream));
    [apply reachable_New|vm_compute; reflexivity].
Qed.

Lemma ex_closed_reachable :
  reachable ex_magic ex_STREAM ex_STREAMCLOSE ex_closed.
Proof.
  apply (reachable_run_ops ex_magic ex_STREAM ex_STREAMCLOSE
           [OpClose] (New ex_stream));
    [apply reachable_New|vm_compute; reflexivity].
Qed.


Lemma not_CONNECTED_untouched_witness :
  (∀ m content,
     ∃ e, WriteMessage ex_magic m content ex_paused = Done (Some e) ex_paused) ∧
  (∃ e, ReadMessage ex_paused = Done (None, None, Some e) ex_paused) ∧
  (∀ s p, is_Some (heap ex_paused !! s) →
          ∃ e, StreamConn_Write ex_magic ex_STREAM s p ex_paused
               = Done (0, Some e) ex_paused).
Proof.
  apply (not_CONNECTED_untouched ex_magic ex_STREAM ex_STREAMCLOSE ex_paused).
  - exact ex_paused_reachable.
  - vm_compute. discriminate.
Defined.

Lemma closeWithError_CONNECTED_witness :
  let e := Some (Sys ErrShortWrite) in
  (os.IsTimeout e = true → closeWithError Worker e ex_connected = Done e ex_connected) ∧
  (errors.Is e (Sys EOF) || errors.Is e (Sys ErrClosedPipe) = true →
   ∃ c', state c' = PAUSED ∧ error c' = Some ConnectionPaused ∧
         closeWithError Worker e ex_connected = Blocks c') ∧
  (os.IsTimeout e = false →
   errors.Is e (Sys EOF) || errors.Is e (Sys ErrClosedPipe) = false →
   ∃ c', state c' = CLOSED ∧
         closeWithError Worker e ex_connected = Blocks c' ∧
         error c' = Some ConnectionClosed ∧ conn c' = conn ex_connected).
Proof.
  apply (closeWithError_CONNECTED ex_magic ex_STREAM ex_STREAMCLOSE
           Worker ex_connected (Some (Sys ErrShortWrite))).
  - exact ex_connected_reachable.
  - reflexivity.
Defined.

Lemma Error_reachable_witness :
  ∃ e, Error ex_paused = Done (Some e) ex_paused ∧
       (state ex_paused = CONNECTED → e = ConnectionClosed) ∧
       (state ex_paused = PAUSED → e = ConnectionPaused).
Proof.
  apply (Error_reachable ex_magic ex_STREAM ex_STREAMCLOSE ex_paused).
  exact ex_paused_reachable.
Defined.

(** C4 as stated fails on a fresh connection: it is [CONNECTED] and
    [Error()] returns [ConnectionClosed], not nil. *)
Lemma Error_nil_while_CONNECTED_counterexample :
  reachable ex_magic ex_STREAM ex_STREAMCLOSE (New ex_stream) ∧
  state (New ex_stream) = CONNECTED ∧
  Error (New ex_stream) = Done (Some ConnectionClosed) (New ex_stream) ∧
  Error (New ex_stream) ≠ Done None (New ex_stream).
Proof.
  split_and!; [apply reachable_New|reflexivity|reflexivity|discriminate].
Qed.

Lemma WriteMessage_InvalidContentLength_witness :
  WriteMessage ex_magic ex_message (Some []) ex_connected
  = Done (Some InvalidContentLength) ex_connected.
Proof.
  apply (WriteMessage_InvalidContentLength ex_magic ex_connected ex_message []).
  - unfold is_uint64. cbn. lia.
  - vm_compute. discriminate.
Defined.


Lemma frame_STREAMCLOSE_witness :
  let m := protocol.mkMessage 0 0 7 ex_STREAMCLOSE 0 in
  let r := mkReader (encodeMessage ex_magic m ++ encodeMessage ex_magic ex_message)
                    0 (2 * Z.of_nat (MessageSize ex_magic)) in
  let r' := mkReader (buf r) (index r + Z.of_nat (MessageSize ex_magic)) (n r) in
  (∀ s o,
     streamConns ex_connected !! protocol.Id m = Some s →
     heap ex_connected !! s = Some o →
     ∃ c', frame ex_magic ex_STREAM ex_STREAMCLOSE r ex_connected
           = READ ex_magic r' c' ∧
           heap c' = <[s := mkStreamConn (id o) (incomingBuffer o) true]>
                       (heap ex_connected) ∧
           heap c' !! s = Some (mkStreamConn (id o) (incomingBuffer o) true) ∧
           streamConns c' = delete (protocol.Id m) (streamConns ex_connected) ∧
           streamConns c' !! protocol.Id m = None ∧
           conn c' = conn ex_connected ∧
           incomingMessages c' = incomingMessages ex_connected) ∧
  (streamConns ex_connected !! protocol.Id m = None →
   frame ex_magic ex_STREAM ex_STREAMCLOSE r ex_connected
   = READ ex_magic r' ex_connected) ∧
  (∀ c0, Z.of_nat (MessageSize ex_magic) ≤ n r' - index r' →
         READ ex_magic r' c0 = Done (AtInner r') c0).
Proof.
  intros m r.
  apply (frame_STREAMCLOSE ex_magic ex_STREAM ex_STREAMCLOSE r ex_connected m).
  - vm_compute. reflexivity.
  - vm_compute. reflexivity.
  - reflexivity.
Defined.

Lemma StreamConn_Write_refused_witness :
  (state ex_paused ≠ CONNECTED →
   StreamConn_Write ex_magic ex_STREAM 0 ex_payload ex_paused
   = Done (0, error ex_paused) ex_paused) ∧
  (state ex_paused = CONNECTED → closed (mkStreamConn 7 (bytes.mkBuffer [] 0 (2 ^ 19)) false) = true →
   StreamConn_Write ex_magic ex_STREAM 0 ex_payload ex_paused
   = Done (0, Some ConnectionClosed) ex_paused).
Proof.
  apply (StreamConn_Write_refused ex_magic ex_STREAM ex_paused 0
           (mkStreamConn 7 (bytes.mkBuffer [] 0 (2 ^ 19)) false) ex_payload).
  reflexivity.
Defined.

(** C8 as stated fails on a paused parent: [Write] on its sub-stream returns
    [ConnectionPaused], the stored error, not [ConnectionClosed]. *)
Lemma StreamConn_Write_paused_counterexample :
  reachable ex_magic ex_STREAM ex_STREAMCLOSE ex_paused ∧
  state ex_paused = PAUSED ∧
  StreamConn_Write ex_magic ex_STREAM 0 ex_payload ex_paused
  = Done (0, Some ConnectionPaused) ex_paused ∧
  StreamConn_Write ex_magic ex_STREAM 0 ex_payload ex_paused
  ≠ Done (0, Some ConnectionClosed) ex_paused.
Proof.
  split_and!; [exact ex_paused_reachable|reflexivity|vm_compute; reflexivity|].
  vm_compute. discriminate.
Qed.


Lemma WriteMessage_nil_payload_witness :
  (∀ r c', WriteMessage ex_magic ex_message None ex_connected = Done r c' →
           r ≠ Some InvalidContentLength) ∧
  (healthy ex_connected →
   ∃ c', WriteMessage ex_magic ex_message None ex_connected = Done None c' ∧
         outbound c' = outbound ex_connected ++ encodeMessage ex_magic ex_message ∧
         length (encodeMessage ex_magic ex_message) = MessageSize ex_magic ∧
         decodeMessage ex_magic (encodeMessage ex_magic ex_message) 0 = Some ex_message).
Proof.
  apply (WriteMessage_nil_payload ex_magic ex_STREAM ex_STREAMCLOSE
           ex_connected ex_message).
  - exact ex_connected_reachable.
  - reflexivity.
  - exact ex_message_wf.
  - reflexivity.
Defined.
